(** * QueueCTL: the job store, the dispatch policy, the retry policy, the
    metrics and the configuration store.

    Embedded from the class [QueueManager] of [src/queue-manager.js], from
    [start], [startWorker] and [processJobs] of [WorkerManager] (the start of
    the workers as far as their first [await], and the two places where the
    outcome of a job is reported), from the class [ConfigManager] and from
    the level filter of [Logger].

    Conventions of the embedding.

    - The store ([jobs.json], read by [readJobs] and written by [writeJobs])
      is the list of its job objects, in file order.  Every operation of
      [QueueManager] reads the list, works on it and writes it back under the
      file lock; it is a function from the list read to the list written.  An
      operation that throws does so before [writeJobs] and is a value
      [inl error]: the file keeps the list that was read.  Failures of the
      file system and of the lock are not part of the model.
    - An instant is the number of milliseconds since the epoch, a [Z].  The
      source stores instants as the strings of [toISOString] and compares the
      strings; for the four-digit years these strings have a fixed width and
      compare as the instants do.  Instants beyond those years, for which
      [toISOString] writes a longer string or throws, are not part of the
      model.
    - Every reading of the clock ([new Date()], [Date.now()]) is an argument
      of the operation that reads it.
    - JavaScript numbers are exact: integers are [Z], the attempt counter,
      which the source only ever sets to 0 and increments, is a [nat], and
      fractional quantities (the backoff base, the metrics, the values of the
      configuration) are [Q].  Of binary64 only the range that [parseFloat]
      can return is modelled, not the rounding. *)

From Stdlib Require Import ZArith QArith Qround Qpower Lia Lqa Ascii.
From stdpp Require Import base option list sorting strings pretty gmap.

Local Open Scope Z_scope.

(** ** Jobs *)

Inductive State : Set :=
  | pending | processing | failed | completed | dead | cancelled.

#[global] Instance State_eq_dec : EqDecision State.
Proof. solve_decision. Defined.

Record Job : Type := mkJob {
  id : string;
  command : option string;
  state : State;
  attempts : nat;
  max_retries : Z;
  priority : Z;
  timeout : Z;
  created_at : Z;
  updated_at : Z;
  next_retry_at : option Z;
  error : option string;
  locked_by : option string;
  locked_at : option Z
}.

(** The argument of [enqueue]: every property may be missing ([None]
    stands for a property that is absent, [null] or [NaN]). *)
Record JobData : Type := mkJobData {
  jd_id : option string;
  jd_command : option string;
  jd_max_retries : option Z;
  jd_priority : option Z;
  jd_timeout : option Z
}.

(** ** JavaScript coercions used by the source *)

(** [s || d] on a string that may be missing: the empty string is falsy. *)
Definition truthy_string (o : option string) : bool :=
  match o with
  | Some s => negb (String.eqb s "")
  | None => false
  end.

Definition or_string (o : option string) (d : string) : string :=
  match o with
  | Some s => if String.eqb s "" then d else s
  | None => d
  end.

(** [n || d] on a number that may be missing: 0 is falsy. *)
Definition or_number (o : option Z) (d : Z) : Z :=
  match o with
  | Some n => if n =? 0 then d else n
  | None => d
  end.

(** [a < b] where [a] is an ISO string or [null] and [b] an ISO string:
    with [null] both sides are converted to numbers, the string becomes
    [NaN], and the comparison is false. *)
Definition instant_ltb (a : option Z) (b : Z) : bool :=
  match a with
  | Some t => t <? b
  | None => false
  end.

(** [a && a <= b] for [a] an ISO string or [null]. *)
Definition instant_set_leb (a : option Z) (b : Z) : bool :=
  match a with
  | Some t => t <=? b
  | None => false
  end.

(** ** ConfigManager *)

Module ConfigManager.

(** A JavaScript number, as far as [set] can tell numbers apart. *)
Inductive Number : Type :=
  | NaN
  | Infinity (negative : bool)
  | Finite (q : Q).

Definition digit_of (c : ascii) : option Z :=
  let n := Z.of_N (N_of_ascii c) in
  if (48 <=? n) && (n <=? 57) then Some (n - 48) else None.

(** The digits at the front of [s]: their value after [acc], how many there
    are, and what follows them. *)
Fixpoint read_digits (s : string) (acc : Z) (count : nat)
    : Z * nat * string :=
  match s with
  | String c s' =>
      match digit_of c with
      | Some d => read_digits s' (acc * 10 + d) (S count)
      | None => (acc, count, s)
      end
  | EmptyString => (acc, count, s)
  end.

Definition is_space (c : ascii) : bool :=
  let n := N_of_ascii c in
  ((9 <=? n) && (n <=? 13) || (n =? 32))%N.

Fixpoint trim_start (s : string) : string :=
  match s with
  | String c s' => if is_space c then trim_start s' else s
  | EmptyString => s
  end.

(** An optional sign, and what follows it. *)
Definition read_sign (s : string) : bool * string :=
  match s with
  | String c r =>
      if Ascii.eqb c "+" then (false, r)
      else if Ascii.eqb c "-" then (true, r)
      else (false, s)
  | EmptyString => (false, s)
  end.

(** The exponent part, [e] or [E], an optional sign and digits; 0 when the
    front of [s] is no complete exponent part. *)
Definition read_exponent (s : string) : Z :=
  match s with
  | String c r =>
      if (Ascii.eqb c "e" || Ascii.eqb c "E")%bool then
        let '(negative, r') := read_sign r in
        let '(e, n, _) := read_digits r' 0 0 in
        if decide (n = 0%nat) then 0
        else if negative then - e else e
      else 0
  | EmptyString => 0
  end.

(** What a binary64 number does to a decimal value out of its range: from
    [2^1024 - 2^970] on it is infinite, up to [2^-1075] it is zero. *)
Definition to_range (negative : bool) (q : Q) : Number :=
  if Qle_bool (inject_Z (2 ^ 1024 - 2 ^ 970)) q then Infinity negative
  else if Qle_bool q (1 # (2 ^ 1075)) then Finite 0
  else Finite (if negative then - q else q).

(** The longest prefix of [s] that is an unsigned decimal literal:
    [Infinity], or digits with an optional fraction and exponent part, at
    least one digit before the exponent. *)
Definition read_unsigned (negative : bool) (s : string) : Number :=
  if String.prefix "Infinity" s then Infinity negative
  else
    let '(ip, ni, r1) := read_digits s 0 0 in
    let '(fp, nf, r2) :=
      match r1 with
      | String c r =>
          if Ascii.eqb c "." then read_digits r 0 0 else (0, 0%nat, r1)
      | EmptyString => (0, 0%nat, r1)
      end in
    if decide (ni = 0%nat ∧ nf = 0%nat) then NaN
    else
      let e := read_exponent r2 in
      to_range negative
        (inject_Z (ip * 10 ^ Z.of_nat nf + fp)
         * Qpower 10 (e - Z.of_nat nf))%Q.

(** [parseFloat(value)] on a string of ASCII characters: white space at the
    front is skipped, then the longest prefix that is a decimal literal is
    read; [NaN] when there is none. *)
Definition parseFloat (value : string) : Number :=
  let '(negative, s) := read_sign (trim_start value) in
  read_unsigned negative s.

(** [isNaN(numValue) || numValue <= 0]. *)
Definition rejected (numValue : Number) : bool :=
  match numValue with
  | NaN => true
  | Infinity negative => negative
  | Finite q => Qle_bool q 0
  end.

(** What [JSON.stringify] writes for a number and [JSON.parse] reads back:
    the number, or [null] for an infinite one. *)
Definition to_JSON (numValue : Number) : option Q :=
  match numValue with
  | Finite q => Some q
  | _ => None
  end.

Definition validKeys : list string := ["max-retries"; "backoff-base"].

(** The errors thrown by [set]: "Invalid config key. Valid keys: ..." and
    "Value must be a positive number". *)
Inductive ConfigError : Type :=
  | InvalidConfigKey
  | ValueMustBePositive.

(** The object written by [initConfig]. *)
Definition defaults : gmap string (option Q) :=
  <["max-retries" := Some 3%Q]> (<["backoff-base" := Some 2%Q]> ∅).

(** [set(key, value)]: the error thrown, or the object written to
    [config.json]. *)
Definition set (key value : string) (config : gmap string (option Q))
    : ConfigError + gmap string (option Q) :=
  if negb (bool_decide (key ∈ validKeys)) then inl InvalidConfigKey
  else
    let numValue := parseFloat value in
    if rejected numValue then inl ValueMustBePositive
    else inr (<[key := to_JSON numValue]> config).

(** [get(key)]: [config[key] || null]; 0 and [null] are falsy. *)
Definition get (key : string) (config : gmap string (option Q)) : option Q :=
  match config !! key with
  | Some (Some q) => if Qeq_bool q 0 then None else Some q
  | _ => None
  end.


End ConfigManager.

(** ** QueueManager *)

(** ['job_' + Date.now() + '_' + Math.random().toString(36).substr(2, 9)];
    [rnd] is the random suffix. *)
Definition generateId (now : Z) (rnd : string) : string :=
  "job_" +:+ pretty now +:+ "_" +:+ rnd.

(** [jobs.find(j => j.id === jobId)]: the first job with the id, with its
    position. *)
Definition find_id (jobId : string) (jobs : list Job) : option (nat * Job) :=
  list_find (λ j, id j = jobId) jobs.

(** [enqueue(jobData)].  [t_id] and [rnd] are what [generateId] reads,
    [t_created] and [t_updated] the two readings of the clock for the
    timestamps.  Returns the job and the store written. *)
Definition enqueue (t_id : Z) (rnd : string) (t_created t_updated : Z)
    (jobData : JobData) (jobs : list Job) : Job * list Job :=
  let job :=
    {| id := or_string (jd_id jobData) (generateId t_id rnd);
       command := jd_command jobData;
       state := pending;
       attempts := 0;
       max_retries := or_number (jd_max_retries jobData) 3;
       priority := or_number (jd_priority jobData) 5;
       timeout := or_number (jd_timeout jobData) 300000;
       created_at := t_created;
       updated_at := t_updated;
       next_retry_at := None;
       error := None;
       locked_by := None;
       locked_at := None |} in
  (job, jobs ++ [job]).

(** Assignments to the properties of a job object. *)
Definition set_state (v : State) (j : Job) : Job :=
  mkJob (id j) (command j) v (attempts j) (max_retries j) (priority j)
    (timeout j) (created_at j) (updated_at j) (next_retry_at j) (error j)
    (locked_by j) (locked_at j).
Definition set_attempts (v : nat) (j : Job) : Job :=
  mkJob (id j) (command j) (state j) v (max_retries j) (priority j)
    (timeout j) (created_at j) (updated_at j) (next_retry_at j) (error j)
    (locked_by j) (locked_at j).
Definition set_updated_at (v : Z) (j : Job) : Job :=
  mkJob (id j) (command j) (state j) (attempts j) (max_retries j) (priority j)
    (timeout j) (created_at j) v (next_retry_at j) (error j)
    (locked_by j) (locked_at j).
Definition set_next_retry_at (v : option Z) (j : Job) : Job :=
  mkJob (id j) (command j) (state j) (attempts j) (max_retries j) (priority j)
    (timeout j) (created_at j) (updated_at j) v (error j)
    (locked_by j) (locked_at j).
Definition set_error (v : option string) (j : Job) : Job :=
  mkJob (id j) (command j) (state j) (attempts j) (max_retries j) (priority j)
    (timeout j) (created_at j) (updated_at j) (next_retry_at j) v
    (locked_by j) (locked_at j).
Definition set_locked_by (v : option string) (j : Job) : Job :=
  mkJob (id j) (command j) (state j) (attempts j) (max_retries j) (priority j)
    (timeout j) (created_at j) (updated_at j) (next_retry_at j) (error j)
    v (locked_at j).
Definition set_locked_at (v : option Z) (j : Job) : Job :=
  mkJob (id j) (command j) (state j) (attempts j) (max_retries j) (priority j)
    (timeout j) (created_at j) (updated_at j) (next_retry_at j) (error j)
    (locked_by j) v.

(** *** getNextJob *)

(** The callback of [filter]. *)
Definition eligible (now fiveMinutesAgo : Z) (job : Job) : bool :=
  if decide (state job = cancelled) then false
  else if decide (state job = pending) then true
  else if bool_decide (state job = failed)
          && instant_set_leb (next_retry_at job) now then true
  else if truthy_string (locked_by job)
          && instant_ltb (locked_at job) fiveMinutesAgo then true
  else false.

(** [sort((a, b) => a.job.priority - b.job.priority)].  The sort of an array
    is stable: entries the comparison does not separate keep their order.
    Insertion from the right, each entry placed before the first one it is
    not greater than, is that sort. *)
Fixpoint insert_by_priority (x : Job * nat) (l : list (Job * nat))
    : list (Job * nat) :=
  match l with
  | [] => [x]
  | y :: l' =>
      if priority x.1 - priority y.1 <=? 0 then x :: l
      else y :: insert_by_priority x l'
  end.

Definition sort_by_priority (l : list (Job * nat)) : list (Job * nat) :=
  foldr insert_by_priority [] l.

Definition eligibleJobs (now fiveMinutesAgo : Z) (jobs : list Job)
    : list (Job * nat) :=
  sort_by_priority
    (filter (λ e, eligible now fiveMinutesAgo e.1)
       (imap (λ idx job, (job, idx)) jobs)).

(** The four assignments to [jobs[idx]]. *)
Definition lock_job (workerId : string) (now : Z) (job : Job) : Job :=
  set_updated_at now
    (set_locked_at (Some now)
       (set_locked_by (Some workerId)
          (set_state processing job))).

(** [getNextJob(workerId)]: [now] is [new Date()], [now2] the later
    [Date.now()] from which the stale-lock horizon is taken.  Returns the job
    handed to the worker, if any, and the store. *)
Definition getNextJob (now now2 : Z) (workerId : string) (jobs : list Job)
    : option Job * list Job :=
  let fiveMinutesAgo := now2 - 5 * 60 * 1000 in
  match eligibleJobs now fiveMinutesAgo jobs with
  | [] => (None, jobs)
  | (job, idx) :: _ =>
      let jobs' := <[idx := lock_job workerId now job]> jobs in
      (jobs' !! idx, jobs')
  end.

(** *** updateJobState, setJobError *)

(** [updateJobState(jobId, state, error)].  The state is a string in the
    source; its only caller passes ['completed']. *)
Definition updateJobState (now : Z) (jobId : string) (st : State)
    (err : option string) (jobs : list Job) : list Job :=
  match find_id jobId jobs with
  | Some (i, job) =>
      <[i := set_locked_at None
               (set_locked_by None
                  (set_updated_at now
                     (set_error err
                        (set_state st job))))]> jobs
  | None => jobs
  end.

Definition setJobError (now : Z) (jobId : string) (err : option string)
    (jobs : list Job) : list Job :=
  match find_id jobId jobs with
  | Some (i, job) => <[i := set_updated_at now (set_error err job)]> jobs
  | None => jobs
  end.

(** *** incrementAttempts *)

(** [new Date(x)] for a number [x]: the time value is [x] without its
    fraction. *)
Definition Date_of (x : Q) : Z :=
  if Qle_bool 0 x then Qfloor x else Qceiling x.

(** [Math.pow(b, n)] for a count [n]. *)
Definition Math_pow (b : Q) (n : nat) : Q := Qpower b (Z.of_nat n).

(** [incrementAttempts(jobId, backoffBase)]: [t_retry] is the [Date.now()]
    of the retry instant, [t_updated] the [new Date()] of [updated_at].  The
    base is the argument passed; the default 2 of the source stands in for an
    argument left out, which its caller never does. *)
Definition incrementAttempts (t_retry t_updated : Z) (jobId : string)
    (backoffBase : Q) (jobs : list Job) : list Job :=
  match find_id jobId jobs with
  | None => jobs
  | Some (i, job) =>
      let newAttempts := (attempts job + 1)%nat in
      if Z.of_nat newAttempts >=? max_retries job then
        <[i := set_locked_at None
                 (set_locked_by None
                    (set_updated_at t_updated
                       (set_state dead job)))]> jobs
      else
        let delaySeconds := Math_pow backoffBase newAttempts in
        let nextRetry :=
          Date_of (inject_Z t_retry + delaySeconds * 1000)%Q in
        <[i := set_locked_at None
                 (set_locked_by None
                    (set_updated_at t_updated
                       (set_next_retry_at (Some nextRetry)
                          (set_state failed
                             (set_attempts newAttempts job)))))]> jobs
  end.

(** *** cancelJob, retryFromDLQ *)

(** The errors thrown by the store, by their messages: "Job <id> not found",
    "Cannot cancel job that is currently processing", "Cannot cancel
    completed job" and "Job <id> not found in DLQ". *)
Inductive Error : Type :=
  | JobNotFound (jobId : string)
  | CannotCancelProcessing
  | CannotCancelCompleted
  | NotFoundInDLQ (jobId : string).

Definition cancelJob (now : Z) (jobId : string) (jobs : list Job)
    : Error + list Job :=
  match find_id jobId jobs with
  | None => inl (JobNotFound jobId)
  | Some (i, job) =>
      if decide (state job = processing) then inl CannotCancelProcessing
      else if decide (state job = completed) then inl CannotCancelCompleted
      else
        inr (<[i := set_locked_at None
                      (set_locked_by None
                         (set_updated_at now
                            (set_state cancelled job)))]> jobs)
  end.

Definition getJob (jobId : string) (jobs : list Job) : option Job :=
  snd <$> find_id jobId jobs.

Definition retryFromDLQ (now : Z) (jobId : string) (jobs : list Job)
    : Error + list Job :=
  match list_find (λ j, id j = jobId ∧ state j = dead) jobs with
  | None => inl (NotFoundInDLQ jobId)
  | Some (i, job) =>
      inr (<[i := set_updated_at now
                    (set_error None
                       (set_next_retry_at None
                          (set_attempts 0
                             (set_state pending job))))]> jobs)
  end.

(** *** getMetrics *)

Record Metrics : Type := mkMetrics {
  totalJobs : nat;
  completedJobs : nat;
  avgExecutionTime : Z;
  successRate : Q
}.

(** [Math.round(x)]: the nearest integer, the larger one half way. *)
Definition Math_round (x : Q) : Z := Qfloor (x + (1 # 2))%Q.

(** [x.toFixed(1)], as the number its digits denote: [n / 10] for the
    integer [n] nearest to [10 x], the larger one half way, on the absolute
    value of [x]. *)
Definition toFixed1 (x : Q) : Q :=
  (if Qle_bool 0 x then inject_Z (Qfloor (x * 10 + (1 # 2))) / 10
   else - (inject_Z (Qfloor (- x * 10 + (1 # 2))) / 10))%Q.

(** [updated - created] on the two parsed dates. *)
Definition executionTime (j : Job) : Z := updated_at j - created_at j.

Definition getMetrics (jobs : list Job) : Metrics :=
  let done_jobs := filter (λ j, state j = completed) jobs in
  if decide (length done_jobs = 0%nat) then
    {| totalJobs := length jobs;
       completedJobs := 0;
       avgExecutionTime := 0;
       successRate := 0 |}
  else
    let executionTimes : list Z := executionTime <$> done_jobs in
    let total : Z := foldl Z.add 0 executionTimes in
    let avgTime :=
      (inject_Z total / inject_Z (Z.of_nat (length executionTimes)))%Q in
    {| totalJobs := length jobs;
       completedJobs := length done_jobs;
       avgExecutionTime := Math_round (avgTime / 1000);
       successRate :=
         toFixed1 (inject_Z (Z.of_nat (length done_jobs))
                   / inject_Z (Z.of_nat (length jobs)) * 100)%Q |}.

(** *** listJobs, listDLQ, getStatus *)

(** [sort(compare)] on an array of jobs: the stable sort, as before, for any
    comparison. *)
Fixpoint insert_job (compare : Job → Job → Z) (x : Job) (l : list Job)
    : list Job :=
  match l with
  | [] => [x]
  | y :: l' =>
      if compare x y <=? 0 then x :: l else y :: insert_job compare x l'
  end.

Definition sort_jobs (compare : Job → Job → Z) (l : list Job) : list Job :=
  foldr (insert_job compare) [] l.

(** [listJobs(state)]: a filter that is [null], left out or the empty string
    is [None].  A filter that is the name of no state selects no job; it is
    not among the arguments here. *)
Definition listJobs (st : option State) (jobs : list Job) : list Job :=
  match st with
  | Some s =>
      sort_jobs (λ a b, created_at b - created_at a)
        (filter (λ j, state j = s) jobs)
  | None => sort_jobs (λ a b, created_at b - created_at a) jobs
  end.

Definition listDLQ (jobs : list Job) : list Job :=
  sort_jobs (λ a b, updated_at b - updated_at a)
    (filter (λ j, state j = dead) jobs).

(** The object [getStatus] returns, a counter for each state. *)
Record Status : Type := mkStatus {
  count_pending : nat;
  count_processing : nat;
  count_completed : nat;
  count_failed : nat;
  count_dead : nat;
  count_cancelled : nat
}.

(** [status[job.state]++]. *)
Definition count_job (status : Status) (job : Job) : Status :=
  let '(mkStatus p r c f d x) := status in
  match state job with
  | pending => mkStatus (p + 1) r c f d x
  | processing => mkStatus p (r + 1) c f d x
  | completed => mkStatus p r (c + 1) f d x
  | failed => mkStatus p r c (f + 1) d x
  | dead => mkStatus p r c f (d + 1) x
  | cancelled => mkStatus p r c f d (x + 1)
  end.

Definition getStatus (jobs : list Job) : Status :=
  foldl count_job (mkStatus 0 0 0 0 0 0) jobs.

(** [status[state]]: the counter of a state. *)
Definition counter (status : Status) (s : State) : nat :=
  match s with
  | pending => count_pending status
  | processing => count_processing status
  | completed => count_completed status
  | failed => count_failed status
  | dead => count_dead status
  | cancelled => count_cancelled status
  end.

(** ** WorkerManager *)

(** The calls [processJobs] makes when the command of a job has run. *)

(** On success: [updateJobState(job.id, 'completed')]. *)
Definition complete (now : Z) (jobId : string) (jobs : list Job) : list Job :=
  updateJobState now jobId completed None jobs.

(** A base that is [null] counts as 0 in [Math.pow]. *)
Definition to_number (v : option Q) : Q := default 0%Q v.

(** On failure: [setJobError(job.id, error.message)], then
    [incrementAttempts(job.id, backoffBase)] with the base read from the
    configuration.  [t_error], [t_retry] and [t_updated] are the readings of
    the clock in the two calls. *)
Definition fail (t_error t_retry t_updated : Z)
    (config : gmap string (option Q)) (jobId message : string)
    (jobs : list Job) : list Job :=
  let jobs1 := setJobError t_error jobId (Some message) jobs in
  let backoffBase := ConfigManager.get "backoff-base" config in
  incrementAttempts t_retry t_updated jobId (to_number backoffBase) jobs1.

(** The entries of [this.workers]. *)
Inductive WorkerStatus : Set := idle | busy.

Record Worker : Type := mkWorker {
  w_id : string;
  w_status : WorkerStatus;
  currentJob : option string;
  jobsProcessed : nat;
  errors : nat
}.

(** [processJobs(worker)] as far as its first [await]: the worker asks the
    store for a job; given none it goes to sleep, given one it is busy on it
    and starts the command.  Returns the worker object as it is then, and
    the store. *)
Definition processJobs_start (now now2 : Z) (worker : Worker)
    (jobs : list Job) : Worker * list Job :=
  match getNextJob now now2 (w_id worker) jobs with
  | (Some job, jobs') =>
      (mkWorker (w_id worker) busy (Some (id job)) (jobsProcessed worker)
         (errors worker), jobs')
  | (None, jobs') => (worker, jobs')
  end.

(** [startWorker(workerId)]: the worker object is pushed on [this.workers]
    and [processJobs] works on that same object. *)
Definition startWorker (now now2 : Z) (workerId : string)
    (st : list Worker * list Job) : list Worker * list Job :=
  let worker := mkWorker workerId idle None 0 0 in
  let '(worker', jobs') := processJobs_start now now2 worker st.2 in
  (st.1 ++ [worker'], jobs').

(** [start(count)]: the workers [worker_1] to [worker_<count>], started one
    after the other; [clock i] are the two readings of the clock in the call
    of [getNextJob] by the worker started in round [i] of the loop.  A
    [count] that is [NaN] or below 1 starts none, as 0 does. *)
Definition start (count : nat) (clock : nat → Z * Z)
    (st : list Worker * list Job) : list Worker * list Job :=
  foldl (λ st i, startWorker (clock i).1 (clock i).2
                   ("worker_" +:+ pretty (i + 1)%nat) st)
    st (seq 0 count).

(** ** Logger *)

Module Logger.

(** [this.levels[name]] as a number: a name that is none of the four gives
    [undefined] or a property of [Object.prototype], which no comparison
    with a number holds of. *)
Definition levels (name : string) : option Z :=
  if String.eqb name "DEBUG" then Some 0
  else if String.eqb name "INFO" then Some 1
  else if String.eqb name "WARN" then Some 2
  else if String.eqb name "ERROR" then Some 3
  else None.

(** [this.levels[process.env.LOG_LEVEL || 'INFO']]. *)
Definition currentLevel (LOG_LEVEL : option string) : option Z :=
  levels (or_string LOG_LEVEL "INFO").

(** [this.levels[level] < this.currentLevel], the test under which [log]
    returns without printing. *)
Definition skipped (LOG_LEVEL : option string) (level : string) : bool :=
  match levels level, currentLevel LOG_LEVEL with
  | Some a, Some b => a <? b
  | _, _ => false
  end.

End Logger.

(** ** Reachable stores *)

(** One call of a store operation.  A call that throws writes nothing and is
    no step. *)
Inductive step : list Job → list Job → Prop :=
  | step_enqueue t_id rnd t_created t_updated jobData jobs :
      step jobs (enqueue t_id rnd t_created t_updated jobData jobs).2
  | step_getNextJob now now2 workerId jobs :
      step jobs (getNextJob now now2 workerId jobs).2
  | step_updateJobState now jobId st err jobs :
      step jobs (updateJobState now jobId st err jobs)
  | step_setJobError now jobId err jobs :
      step jobs (setJobError now jobId err jobs)
  | step_incrementAttempts t_retry t_updated jobId backoffBase jobs :
      step jobs (incrementAttempts t_retry t_updated jobId backoffBase jobs)
  | step_cancelJob now jobId jobs jobs' :
      cancelJob now jobId jobs = inr jobs' → step jobs jobs'
  | step_retryFromDLQ now jobId jobs jobs' :
      retryFromDLQ now jobId jobs = inr jobs' → step jobs jobs'.

(** [initDatabase] writes the empty array; the stores that calls of the
    operations lead to from there. *)
Inductive reachable : list Job → Prop :=
  | reachable_init : reachable []
  | reachable_step jobs jobs' :
      reachable jobs → step jobs jobs' → reachable jobs'.

(** ** Calls of the callers *)

(** One call as the command line and the workers make them: as [step], with
    [updateJobState] only in the call [complete] and [setJobError] only with
    a message. *)
Inductive call : list Job → list Job → Prop :=
  | call_enqueue t_id rnd t_created t_updated jobData jobs :
      call jobs (enqueue t_id rnd t_created t_updated jobData jobs).2
  | call_getNextJob now now2 workerId jobs :
      call jobs (getNextJob now now2 workerId jobs).2
  | call_complete now jobId jobs :
      call jobs (complete now jobId jobs)
  | call_setJobError now jobId message jobs :
      call jobs (setJobError now jobId (Some message) jobs)
  | call_incrementAttempts t_retry t_updated jobId backoffBase jobs :
      call jobs (incrementAttempts t_retry t_updated jobId backoffBase jobs)
  | call_cancelJob now jobId jobs jobs' :
      cancelJob now jobId jobs = inr jobs' → call jobs jobs'
  | call_retryFromDLQ now jobId jobs jobs' :
      retryFromDLQ now jobId jobs = inr jobs' → call jobs jobs'.

(** The stores such calls lead to from the empty one. *)
Inductive in_service : list Job → Prop :=
  | in_service_init : in_service []
  | in_service_call jobs jobs' :
      in_service jobs → call jobs jobs' → in_service jobs'.

(** The stores that calls lead to from the empty one while the clock never
    goes back: [timed t jobs] when the readings of the clock, in the order in
    which the calls made them, never decreased and ended at [t]. *)
Inductive timed : Z → list Job → Prop :=
  | timed_init t : timed t []
  | timed_enqueue t t_id rnd t_created t_updated jobData jobs :
      timed t jobs → t ≤ t_id → t_id ≤ t_created → t_created ≤ t_updated →
      timed t_updated (enqueue t_id rnd t_created t_updated jobData jobs).2
  | timed_getNextJob t now now2 workerId jobs :
      timed t jobs → t ≤ now → now ≤ now2 →
      timed now2 (getNextJob now now2 workerId jobs).2
  | timed_updateJobState t now jobId st err jobs :
      timed t jobs → t ≤ now →
      timed now (updateJobState now jobId st err jobs)
  | timed_setJobError t now jobId err jobs :
      timed t jobs → t ≤ now →
      timed now (setJobError now jobId err jobs)
  | timed_incrementAttempts t t_retry t_updated jobId backoffBase jobs :
      timed t jobs → t ≤ t_retry → t_retry ≤ t_updated →
      timed t_updated
        (incrementAttempts t_retry t_updated jobId backoffBase jobs)
  | timed_cancelJob t now jobId jobs jobs' :
      timed t jobs → t ≤ now →
      cancelJob now jobId jobs = inr jobs' → timed now jobs'
  | timed_retryFromDLQ t now jobId jobs jobs' :
      timed t jobs → t ≤ now →
      retryFromDLQ now jobId jobs = inr jobs' → timed now jobs'.

(** The configurations that calls of [set] lead to from the one [initConfig]
    writes. *)
Inductive configured : gmap string (option Q) → Prop :=
  | configured_init : configured ConfigManager.defaults
  | configured_set key value config config' :
      configured config →
      ConfigManager.set key value config = inr config' →
      configured config'.

(** ** Vocabulary of the properties *)

(** I7: no two jobs of the store share an id. *)
Definition ids_unique (jobs : list Job) : Prop :=
  ∀ i1 i2 j1 j2,
    jobs !! i1 = Some j1 → jobs !! i2 = Some j2 → id j1 = id j2 → i1 = i2.

(** The store lists its jobs from the oldest [created_at] to the newest. *)
Definition in_creation_order (jobs : list Job) : Prop :=
  ∀ i1 i2 j1 j2,
    jobs !! i1 = Some j1 → jobs !! i2 = Some j2 → (i1 ≤ i2)%nat →
    created_at j1 ≤ created_at j2.


(** Only a job being processed carries a lock. *)
Definition lock_only_processing (jobs : list Job) : Prop :=
  Forall (λ j, state j ≠ processing → locked_by j = None ∧ locked_at j = None)
    jobs.




(** What no call changes in a job. *)
Definition same_identity (j j' : Job) : Prop :=
  id j' = id j ∧ command j' = command j ∧ created_at j' = created_at j
  ∧ max_retries j' = max_retries j ∧ priority j' = priority j
  ∧ timeout j' = timeout j.

(** The state of a job agrees with its counters and its retry instant. *)
Definition state_consistent (j : Job) : Prop :=
  (state j = pending → attempts j = 0%nat ∧ next_retry_at j = None)
  ∧ (state j = failed →
     is_Some (next_retry_at j) ∧ Z.of_nat (attempts j) < max_retries j)
  ∧ (state j = dead → max_retries j ≤ Z.of_nat (attempts j) + 1)
  ∧ (state j = processing → is_Some (locked_by j) ∧ is_Some (locked_at j)).

(** What [enqueue] gives every job: an id, and no 0 where it has a default. *)
Definition well_formed (j : Job) : Prop :=
  id j ≠ "" ∧ max_retries j ≠ 0 ∧ priority j ≠ 0 ∧ timeout j ≠ 0.

(** The instants of a job are in the order in which they were read, none
    after [t]. *)
Definition instants_in_order (t : Z) (j : Job) : Prop :=
  created_at j ≤ updated_at j ∧ updated_at j ≤ t
  ∧ ∀ l, locked_at j = Some l → created_at j ≤ l ∧ l ≤ updated_at j.

(** The jobs [listJobs] lists: all of them, or those of a state. *)
Definition selected (st : option State) (jobs : list Job) : list Job :=
  match st with
  | Some s => filter (λ j, state j = s) jobs
  | None => jobs
  end.

(** ** Stores used as examples *)

Definition job_data (i cmd : string) : JobData :=
  {| jd_id := Some i; jd_command := Some cmd; jd_max_retries := None;
     jd_priority := None; jd_timeout := None |}.

(** A job as [enqueue] leaves it. *)
Definition fresh_job (i : string) (prio t : Z) : Job :=
  {| id := i; command := Some "echo A"; state := pending; attempts := 0;
     max_retries := 3; priority := prio; timeout := 300000;
     created_at := t; updated_at := t; next_retry_at := None;
     error := None; locked_by := None; locked_at := None |}.

(** A job that fails on each of the three attempts it is allowed: enqueued
    at 1000, claimed at 2000, 5000 and 10000, failed one second later each
    time, under the configuration [initConfig] writes. *)
Definition store_enqueued : list Job :=
  (enqueue 1000 "k3x9q0a7b" 1000 1000 (job_data "j1" "exit 1") []).2.
Definition store_claimed : list Job :=
  (getNextJob 2000 2000 "worker_1" store_enqueued).2.
Definition store_failed_once : list Job :=
  fail 3000 3000 3000 ConfigManager.defaults "j1"
    "Command failed with exit code 1: " store_claimed.
Definition store_failed_twice : list Job :=
  fail 6000 6000 6000 ConfigManager.defaults "j1"
    "Command failed with exit code 1: "
    (getNextJob 5000 5000 "worker_1" store_failed_once).2.
Definition store_failed_thrice : list Job :=
  fail 11000 11000 11000 ConfigManager.defaults "j1"
    "Command failed with exit code 1: "
    (getNextJob 10000 10000 "worker_1" store_failed_twice).2.

(** The same id enqueued twice. *)
Definition store_twins : list Job :=
  (enqueue 2000 "k3x9q0a7c" 2000 2000 (job_data "j1" "echo B")
     store_enqueued).2.

(** Two pending jobs of one priority, the second one the older. *)
Definition store_younger_first : list Job :=
  [fresh_job "a" 5 2000; fresh_job "b" 5 1000].

(** A completed job that still carries a lock taken at instant 0. *)
Definition store_locked_completed : list Job :=
  [set_locked_at (Some 0)
     (set_locked_by (Some "worker_1")
        (set_state completed (fresh_job "a" 5 0)))].



(** A job completed, and a second one enqueued under its id. *)
Definition store_twin_done : list Job :=
  (enqueue 4000 "k3x9q0a7c" 4000 4000 (job_data "j1" "echo B")
     (complete 3000 "j1" store_claimed)).2.

(** ** Auxiliary notions *)

(** The entries of [eligibleJobs] by their position in the store. *)
Definition by_index : relation (Job * nat) := λ x y, (x.2 < y.2)%nat.

(** The sum that [reduce((a, b) => a + b, 0)] computes. *)
Definition sum_Z (l : list Z) : Z := foldr Z.add 0 l.

(** * Properties *)

(** ** Looking a job up *)

Lemma find_id_Some jobId jobs i job :
  find_id jobId jobs = Some (i, job) →
  jobs !! i = Some job ∧ id job = jobId ∧ (i < length jobs)%nat.
Proof.
  unfold find_id. intros (Hi & Hid & _)%list_find_Some.
  split_and!; [done | done | by eapply lookup_lt_Some].
Qed.

Lemma find_id_None jobId jobs :
  find_id jobId jobs = None ↔ Forall (λ j, id j ≠ jobId) jobs.
Proof. unfold find_id. apply list_find_None. Qed.

Lemma find_dead_None jobId jobs :
  Forall (λ j, id j = jobId → state j ≠ dead) jobs →
  list_find (λ j, id j = jobId ∧ state j = dead) jobs = None.
Proof.
  intros H. apply list_find_None. eapply Forall_impl; [exact H |].
  intros j Hj [Hid Hst]. by apply Hj.
Qed.

(** Where ids are distinct, the job written at the position of a job with
    the id is the one a lookup by id finds. *)
Lemma find_id_insert jobId jobs i job job' :
  ids_unique jobs → jobs !! i = Some job → id job = jobId →
  id job' = jobId →
  find_id jobId (<[i := job']> jobs) = Some (i, job').
Proof.
  intros Huniq Hi Hid Hid'. apply list_find_Some. split_and!.
  - apply list_lookup_insert_eq. by eapply lookup_lt_Some.
  - done.
  - intros k other Hk Hlt Hother.
    rewrite list_lookup_insert_ne in Hk by lia.
    assert (k = i); [| lia].
    apply (Huniq k i other job Hk Hi). congruence.
Qed.

(** ** Stores the operations reach *)

Lemma reachable_enqueue t_id rnd t_created t_updated jobData jobs :
  reachable jobs →
  reachable (enqueue t_id rnd t_created t_updated jobData jobs).2.
Proof. intros H. eapply reachable_step; [exact H | apply step_enqueue]. Qed.

Lemma reachable_getNextJob now now2 workerId jobs :
  reachable jobs → reachable (getNextJob now now2 workerId jobs).2.
Proof. intros H. eapply reachable_step; [exact H | apply step_getNextJob]. Qed.

Lemma reachable_complete now jobId jobs :
  reachable jobs → reachable (complete now jobId jobs).
Proof.
  intros H. eapply reachable_step; [exact H | apply step_updateJobState].
Qed.

Lemma reachable_fail t_error t_retry t_updated config jobId message jobs :
  reachable jobs →
  reachable (fail t_error t_retry t_updated config jobId message jobs).
Proof.
  intros H. unfold fail.
  eapply reachable_step; [| apply step_incrementAttempts].
  eapply reachable_step; [exact H | apply step_setJobError].
Qed.

Lemma reachable_store_enqueued : reachable store_enqueued.
Proof. apply reachable_enqueue, reachable_init. Qed.

Lemma reachable_store_failed_once : reachable store_failed_once.
Proof.
  apply reachable_fail, reachable_getNextJob, reachable_store_enqueued.
Qed.

Lemma reachable_store_failed_thrice : reachable store_failed_thrice.
Proof.
  do 2 apply reachable_fail, reachable_getNextJob.
  apply reachable_store_failed_once.
Qed.

(** ** Calls on a missing id *)

(** C10.  When no job of the store has the id, [updateJobState],
    [setJobError] and [incrementAttempts], and with them the calls [complete]
    and [fail] of the worker, return the store as it was and raise nothing,
    while [cancelJob] and [retryFromDLQ] throw their not-found errors. *)
Theorem missing_id_is_noop
    now t_retry t_updated jobId st err backoffBase config message jobs :
  Forall (λ j, id j ≠ jobId) jobs →
  (updateJobState now jobId st err jobs = jobs
   ∧ setJobError now jobId err jobs = jobs
   ∧ incrementAttempts t_retry t_updated jobId backoffBase jobs = jobs)
  ∧ (complete now jobId jobs = jobs
     ∧ fail now t_retry t_updated config jobId message jobs = jobs)
  ∧ (cancelJob now jobId jobs = inl (JobNotFound jobId)
     ∧ retryFromDLQ now jobId jobs = inl (NotFoundInDLQ jobId)).
Proof.
  intros Hno. pose proof (proj2 (find_id_None jobId jobs) Hno) as Hfind.
  assert (Hdead : list_find (λ j, id j = jobId ∧ state j = dead) jobs = None).
  { apply find_dead_None. eapply Forall_impl; [exact Hno |]. by intros j ? ?. }
  unfold fail, complete, updateJobState, setJobError, incrementAttempts,
    cancelJob, retryFromDLQ.
  by rewrite !Hfind, Hdead.
Qed.

(** C10: a witness, on an id the store does not hold. *)
Lemma missing_id_is_noop_witness :
  Forall (λ j, id j ≠ "nope") store_failed_once
  ∧ complete 4000 "nope" store_failed_once = store_failed_once
  ∧ fail 4000 4000 4000 ConfigManager.defaults "nope" "Job timeout exceeded"
      store_failed_once = store_failed_once
  ∧ cancelJob 4000 "nope" store_failed_once = inl (JobNotFound "nope").
Proof.
  assert (H : Forall (λ j, id j ≠ "nope") store_failed_once)
    by (repeat constructor; discriminate).
  split; [exact H |].
  pose proof (missing_id_is_noop 4000 4000 4000 "nope" completed None 2
                ConfigManager.defaults "Job timeout exceeded"
                store_failed_once H) as (_ & [H1 H2] & [H3 _]).
  split_and!; [exact H1 | exact H2 | exact H3].
Defined.

(** ** Revival from the dead letter queue *)

(** C7.  [retryFromDLQ] succeeds exactly when the store holds a dead job
    with the id, and throws "not found in DLQ" otherwise; after a successful
    call the job it revived, the first dead one with the id, is pending with
    0 attempts, no error and no retry instant, and no other job changed;
    where ids are distinct it is the job a lookup by the id finds. *)
Theorem retryFromDLQ_revives now jobId jobs :
  ((∃ jobs', retryFromDLQ now jobId jobs = inr jobs')
   ↔ ∃ job, job ∈ jobs ∧ id job = jobId ∧ state job = dead)
  ∧ ((¬ ∃ job, job ∈ jobs ∧ id job = jobId ∧ state job = dead) →
     retryFromDLQ now jobId jobs = inl (NotFoundInDLQ jobId))
  ∧ (∀ jobs', retryFromDLQ now jobId jobs = inr jobs' →
     ∃ i job job',
       jobs !! i = Some job ∧ id job = jobId ∧ state job = dead
       ∧ jobs' = <[i := job']> jobs ∧ jobs' !! i = Some job'
       ∧ id job' = jobId ∧ state job' = pending ∧ attempts job' = 0%nat
       ∧ error job' = None ∧ next_retry_at job' = None
       ∧ updated_at job' = now
       ∧ (ids_unique jobs → getJob jobId jobs' = Some job')).
Proof.
  unfold retryFromDLQ.
  destruct (list_find (λ j, id j = jobId ∧ state j = dead) jobs)
    as [[i job]|] eqn:Hfind.
  - apply list_find_Some in Hfind as (Hi & [Hid Hst] & _).
    assert (Hhas : ∃ job, job ∈ jobs ∧ id job = jobId ∧ state job = dead).
    { exists job. split_and!; [by eapply list_elem_of_lookup_2 | done..]. }
    split_and!.
    + split; [by intros _ | eauto].
    + by intros Hno.
    + intros jobs' [= <-]. eexists i, job, _.
      split_and!; try done.
      * apply list_lookup_insert_eq. by eapply lookup_lt_Some.
      * intros Huniq. unfold getJob.
        erewrite find_id_insert; [reflexivity | done | exact Hi | done..].
  - assert (Hnone : ¬ ∃ job, job ∈ jobs ∧ id job = jobId ∧ state job = dead).
    { intros (job & Hin & Hid & Hst).
      apply list_find_None in Hfind. rewrite Forall_forall in Hfind.
      by apply (Hfind job Hin). }
    split_and!; [| done | discriminate].
    split; [by intros [? ?] | by intros ?].
Qed.

(** C7: a witness, on the dead job of [store_failed_thrice]. *)
Lemma retryFromDLQ_revives_witness :
  ∃ jobs' i job',
    retryFromDLQ 20000 "j1" store_failed_thrice = inr jobs'
    ∧ jobs' !! i = Some job'
    ∧ state job' = pending ∧ attempts job' = 0%nat
    ∧ error job' = None ∧ next_retry_at job' = None.
Proof.
  assert (Hrun : ∃ jobs', retryFromDLQ 20000 "j1" store_failed_thrice
                          = inr jobs')
    by (eexists; vm_compute; reflexivity).
  destruct Hrun as [jobs' Hrun].
  destruct (retryFromDLQ_revives 20000 "j1" store_failed_thrice)
    as (_ & _ & Hok).
  destruct (Hok jobs' Hrun)
    as (i & job & job' & _ & _ & _ & _ & Hi & _ & Hst & Hat & He & Hn & _).
  by exists jobs', i, job'.
Defined.

(** ** Transitions applied twice *)

(** C5, as amended.  For the job that a lookup by id finds: [complete]
    succeeds whatever the current state is, a completed job included;
    [cancelJob] throws only for a processing and for a completed job, and
    cancels every other job, an already cancelled one included;
    [retryFromDLQ] throws when no job with the id is dead, so on a job it has
    already revived. *)
Theorem repeated_transitions now jobId jobs i job :
  find_id jobId jobs = Some (i, job) →
  (∃ job', complete now jobId jobs = <[i := job']> jobs
           ∧ complete now jobId jobs !! i = Some job'
           ∧ state job' = completed ∧ updated_at job' = now)
  ∧ (state job = processing →
     cancelJob now jobId jobs = inl CannotCancelProcessing)
  ∧ (state job = completed →
     cancelJob now jobId jobs = inl CannotCancelCompleted)
  ∧ (state job ≠ processing → state job ≠ completed →
     ∃ job', cancelJob now jobId jobs = inr (<[i := job']> jobs)
             ∧ <[i := job']> jobs !! i = Some job'
             ∧ state job' = cancelled ∧ updated_at job' = now)
  ∧ (Forall (λ j, id j = jobId → state j ≠ dead) jobs →
     retryFromDLQ now jobId jobs = inl (NotFoundInDLQ jobId)).
Proof.
  intros Hfind. pose proof (find_id_Some _ _ _ _ Hfind) as (Hi & Hid & Hlt).
  unfold complete, updateJobState, cancelJob. rewrite Hfind. split_and!.
  - eexists. split_and!; [reflexivity | | reflexivity..].
    by apply list_lookup_insert_eq.
  - intros Hst. by rewrite decide_True.
  - intros Hst. rewrite decide_False, decide_True; [done.. |].
    by rewrite Hst.
  - intros Hp Hc. rewrite !decide_False by done.
    eexists. split_and!; [reflexivity | | reflexivity..].
    by apply list_lookup_insert_eq.
  - intros Hnodead. unfold retryFromDLQ. by rewrite find_dead_None.
Qed.

(** C5: a witness, on the pending job of [store_enqueued]. *)
Lemma repeated_transitions_witness :
  ∃ job,
    find_id "j1" store_enqueued = Some (0%nat, job)
    ∧ state job = pending
    ∧ ∃ job', complete 2000 "j1" store_enqueued
              = <[0%nat := job']> store_enqueued
        ∧ state job' = completed.
Proof.
  eexists. split; [vm_compute; reflexivity |]. split; [reflexivity |].
  destruct (repeated_transitions 2000 "j1" store_enqueued 0%nat _ eq_refl)
    as [(job' & Heq & _ & Hst & _) _].
  by exists job'.
Defined.

(** C5 fails as stated: a pending job is completed, a completed job is
    completed once more, and a cancelled job is cancelled once more, each
    time without an error. *)
Lemma complete_and_cancel_twice :
  ∃ done1 done2 gone1 gone2 : Job,
    (∃ job, store_enqueued = [job] ∧ state job = pending)
    ∧ complete 2000 "j1" store_enqueued = [done1]
    ∧ state done1 = completed
    ∧ complete 3000 "j1" [done1] = [done2]
    ∧ state done2 = completed ∧ updated_at done2 = 3000
    ∧ cancelJob 2000 "j1" store_enqueued = inr [gone1]
    ∧ state gone1 = cancelled
    ∧ cancelJob 3000 "j1" [gone1] = inr [gone2]
    ∧ state gone2 = cancelled ∧ updated_at gone2 = 3000.
Proof.
  do 4 eexists.
  split; [by eexists |].
  split; [vm_compute; reflexivity |]. split; [reflexivity |].
  split; [vm_compute; reflexivity |]. split; [reflexivity |].
  split; [reflexivity |].
  split; [vm_compute; reflexivity |]. split; [reflexivity |].
  split; [vm_compute; reflexivity |]. by split.
Qed.

(** ** The retry policy *)







(** ** The dead letter queue *)

(** The branch that moves a job to the dead letter queue leaves [attempts]
    as it finds it. *)
Lemma incrementAttempts_dead_keeps_attempts
    t_retry t_updated jobId backoffBase jobs i job :
  find_id jobId jobs = Some (i, job) →
  max_retries job ≤ Z.of_nat (attempts job + 1) →
  ∃ job', incrementAttempts t_retry t_updated jobId backoffBase jobs !! i
          = Some job'
    ∧ state job' = dead ∧ attempts job' = attempts job
    ∧ max_retries job' = max_retries job.
Proof.
  intros Hfind Hmax.
  pose proof (find_id_Some _ _ _ _ Hfind) as (Hi & Hid & Hlt).
  unfold incrementAttempts. rewrite Hfind.
  destruct (Z.geb_spec (Z.of_nat (attempts job + 1)) (max_retries job));
    [| lia].
  eexists. split; [by apply list_lookup_insert_eq | done].
Qed.

(** C1, evaluated on the code.  A job enqueued with the default
    [max_retries] of 3, claimed and failed three times by a worker, is dead
    in a reachable store with [attempts] 2: the branch that moves a job to
    the dead letter queue does not store the new count. *)
Theorem dead_job_below_max_retries :
  reachable store_failed_thrice
  ∧ ∃ job, store_failed_thrice = [job]
      ∧ state job = dead ∧ attempts job = 2%nat ∧ max_retries job = 3.
Proof.
  split; [apply reachable_store_failed_thrice |].
  eexists. split; [vm_compute; reflexivity | by vm_compute].
Qed.

(** ** The dispatch order *)

Section dispatch.
Implicit Types (x y : Job * nat) (l : list (Job * nat)).

Lemma elem_of_insert_by_priority x y l :
  x ∈ insert_by_priority y l ↔ x = y ∨ x ∈ l.
Proof.
  induction l as [|z l IH]; simpl.
  - rewrite list_elem_of_singleton, elem_of_nil. tauto.
  - destruct (priority y.1 - priority z.1 <=? 0).
    + by rewrite elem_of_cons.
    + rewrite !elem_of_cons, IH. tauto.
Qed.

Lemma elem_of_sort_by_priority x l : x ∈ sort_by_priority l ↔ x ∈ l.
Proof.
  induction l as [|z l IH]; simpl; [done |].
  rewrite elem_of_insert_by_priority, elem_of_cons, IH. tauto.
Qed.

Lemma sort_by_priority_nil l : sort_by_priority l = [] → l = [].
Proof.
  destruct l as [|z l]; [done |]. intros H.
  assert (Hz : z ∈ sort_by_priority (z :: l))
    by (apply elem_of_sort_by_priority; left).
  rewrite H in Hz. by apply elem_of_nil in Hz.
Qed.

(** The head of the sorted list is the first entry of least priority. *)
Lemma sort_by_priority_head l x rest :
  sort_by_priority l = x :: rest →
  ∃ l1 l2, l = l1 ++ x :: l2
    ∧ Forall (λ y, priority x.1 < priority y.1) l1
    ∧ Forall (λ y, priority x.1 ≤ priority y.1) l2.
Proof.
  revert x rest. induction l as [|a l IH]; intros x rest; simpl; [done |].
  destruct (sort_by_priority l) as [|y r] eqn:Hsort; simpl.
  - intros [= <- <-]. apply sort_by_priority_nil in Hsort as ->.
    by exists [], [].
  - destruct (IH y r eq_refl) as (l1 & l2 & -> & H1 & H2).
    destruct (Z.leb_spec (priority a.1 - priority y.1) 0) as [Hle|Hgt].
    + intros [= <- <-]. exists [], (l1 ++ y :: l2).
      split_and!; [done | constructor |].
      apply Forall_app. split; [| constructor].
      * eapply Forall_impl; [exact H1 |]. simpl. intros; lia.
      * lia.
      * eapply Forall_impl; [exact H2 |]. simpl. intros; lia.
    + intros [= <- <-]. exists (a :: l1), l2.
      split_and!; [done | constructor; [lia | done] | done].
Qed.

Lemma entries_by_index (f : nat → nat) (jobs : list Job) :
  (∀ i k, (i < k)%nat → (f i < f k)%nat) →
  StronglySorted by_index (imap (λ idx job, (job, f idx)) jobs).
Proof.
  revert f. induction jobs as [|job jobs IH]; intros f Hf; [constructor |].
  rewrite imap_cons. constructor.
  - apply (IH (f ∘ S)). intros i k Hik. apply Hf. lia.
  - apply Forall_forall. intros y (i & other & -> & _)%elem_of_lookup_imap.
    unfold by_index; simpl. apply Hf. lia.
Qed.

Lemma filter_by_index (P : Job * nat → Prop) `{!∀ x, Decision (P x)} l :
  StronglySorted by_index l → StronglySorted by_index (filter P l).
Proof.
  induction 1 as [|a l Hl IH Ha]; [constructor |].
  rewrite filter_cons. destruct (decide (P a)); [| done].
  constructor; [done |]. rewrite Forall_forall in Ha |- *.
  intros y [_ Hy]%list_elem_of_filter. by apply Ha.
Qed.
End dispatch.

Lemma elem_of_eligibleJobs now fiveMinutesAgo jobs job idx :
  (job, idx) ∈ eligibleJobs now fiveMinutesAgo jobs
  ↔ jobs !! idx = Some job ∧ eligible now fiveMinutesAgo job.
Proof.
  unfold eligibleJobs.
  rewrite elem_of_sort_by_priority, list_elem_of_filter, elem_of_lookup_imap.
  simpl. split.
  - intros (He & i & other & [= -> ->] & Hi). done.
  - intros (Hi & He). split; [done |]. by exists idx, job.
Qed.


(** The entry [getNextJob] takes: the eligible job of least priority, the
    one at the least position among those of that priority. *)
Lemma eligibleJobs_head now fiveMinutesAgo jobs job idx rest :
  eligibleJobs now fiveMinutesAgo jobs = (job, idx) :: rest →
  jobs !! idx = Some job
  ∧ eligible now fiveMinutesAgo job
  ∧ ∀ i other, jobs !! i = Some other → eligible now fiveMinutesAgo other →
      priority job < priority other
      ∨ (priority job = priority other ∧ (idx ≤ i)%nat).
Proof.
  intros Hhead.
  assert (Hin : (job, idx) ∈ eligibleJobs now fiveMinutesAgo jobs)
    by (rewrite Hhead; left).
  apply elem_of_eligibleJobs in Hin as [Hidx Hel]. split_and!; [done.. |].
  intros i other Hi He.
  unfold eligibleJobs in Hhead.
  apply sort_by_priority_head in Hhead as (l1 & l2 & Hl & H1 & H2).
  assert (Hsorted : StronglySorted by_index (l1 ++ (job, idx) :: l2)).
  { rewrite <- Hl. apply filter_by_index.
    apply (entries_by_index (λ n, n)). auto. }
  assert (Hmem : (other, i) ∈ l1 ++ (job, idx) :: l2).
  { rewrite <- Hl, list_elem_of_filter, elem_of_lookup_imap. simpl.
    split; [done |]. by exists i, other. }
  apply elem_of_app in Hmem as [Hmem | Hmem].
  - left. rewrite Forall_forall in H1. apply (H1 _ Hmem).
  - apply elem_of_cons in Hmem as [[= -> ->] | Hmem]; [right; lia |].
    rewrite Forall_forall in H2. pose proof (H2 _ Hmem) as Hle. simpl in Hle.
    apply StronglySorted_app_1_r, StronglySorted_cons in Hsorted as [Hlt _].
    rewrite Forall_forall in Hlt. pose proof (Hlt _ Hmem) as Hidx'.
    unfold by_index in Hidx'; simpl in Hidx'. lia.
Qed.



(** ** The order of creation *)

Lemma in_creation_order_fmap jobs jobs' :
  created_at <$> jobs' = created_at <$> jobs →
  in_creation_order jobs → in_creation_order jobs'.
Proof.
  intros Heq Hord i1 i2 j1 j2 H1 H2 Hle.
  assert (Hget : ∀ i j, jobs' !! i = Some j →
                   ∃ j0, jobs !! i = Some j0 ∧ created_at j0 = created_at j).
  { intros i j Hi.
    assert (Hc : (created_at <$> jobs') !! i = Some (created_at j))
      by by rewrite list_lookup_fmap, Hi.
    rewrite Heq, list_lookup_fmap in Hc.
    apply fmap_Some in Hc as (j0 & ? & ?). by exists j0. }
  destruct (Hget _ _ H1) as (k1 & Hk1 & <-).
  destruct (Hget _ _ H2) as (k2 & Hk2 & <-).
  by apply (Hord i1 i2).
Qed.

Lemma created_at_insert (jobs : list Job) (i : nat) job job' :
  jobs !! i = Some job → created_at job' = created_at job →
  created_at <$> <[i := job']> jobs = created_at <$> jobs.
Proof.
  intros Hi Hc. rewrite list_fmap_insert, Hc.
  apply list_insert_id. by rewrite list_lookup_fmap, Hi.
Qed.

Lemma in_creation_order_snoc (jobs : list Job) job :
  in_creation_order jobs →
  Forall (λ j, created_at j ≤ created_at job) jobs →
  in_creation_order (jobs ++ [job]).
Proof.
  intros Hord Hnew i1 i2 j1 j2.
  rewrite !lookup_app_Some, !list_lookup_singleton_Some.
  rewrite Forall_forall in Hnew.
  intros [H1 | (Hl1 & Hz1 & <-)] [H2 | (Hl2 & Hz2 & <-)] Hle.
  - by apply (Hord i1 i2).
  - apply Hnew. by eapply list_elem_of_lookup_2.
  - apply lookup_lt_Some in H2. lia.
  - lia.
Qed.

(** A call keeps the store in creation order, provided the clock has not
    gone back when it is an [enqueue]. *)
Lemma step_in_creation_order jobs jobs' :
  step jobs jobs' → in_creation_order jobs →
  (∀ job, jobs' = jobs ++ [job] →
          Forall (λ j, created_at j ≤ created_at job) jobs) →
  in_creation_order jobs'.
Proof.
  destruct 1 as [t_id rnd tc tu jobData jobs | now now2 w jobs
                 | now jobId st err jobs | now jobId err jobs
                 | tr tu jobId b jobs | now jobId jobs jobs' Hc
                 | now jobId jobs jobs' Hr]; intros Hord Hclock.
  - simpl in *. apply in_creation_order_snoc; [done |]. by apply Hclock.
  - unfold getNextJob.
    destruct (eligibleJobs now _ jobs) as [|[job idx] rest] eqn:Hel; [done |].
    apply eligibleJobs_head in Hel as (Hidx & _ & _). simpl.
    eapply in_creation_order_fmap; [| exact Hord].
    by eapply created_at_insert.
  - unfold updateJobState.
    destruct (find_id jobId jobs) as [[i job]|] eqn:Hfind; [| done].
    apply find_id_Some in Hfind as (Hi & _ & _).
    eapply in_creation_order_fmap; [| exact Hord].
    by eapply created_at_insert.
  - unfold setJobError.
    destruct (find_id jobId jobs) as [[i job]|] eqn:Hfind; [| done].
    apply find_id_Some in Hfind as (Hi & _ & _).
    eapply in_creation_order_fmap; [| exact Hord].
    by eapply created_at_insert.
  - unfold incrementAttempts.
    destruct (find_id jobId jobs) as [[i job]|] eqn:Hfind; [| done].
    apply find_id_Some in Hfind as (Hi & _ & _).
    eapply in_creation_order_fmap; [| exact Hord].
    destruct (_ >=? _); by eapply created_at_insert.
  - unfold cancelJob in Hc.
    destruct (find_id jobId jobs) as [[i job]|] eqn:Hfind; [| done].
    apply find_id_Some in Hfind as (Hi & _ & _).
    repeat case_decide; simplify_eq.
    eapply in_creation_order_fmap; [| exact Hord].
    by eapply created_at_insert.
  - unfold retryFromDLQ in Hr.
    destruct (list_find _ jobs) as [[i job]|] eqn:Hfind; [| done].
    apply list_find_Some in Hfind as (Hi & _ & _). simplify_eq.
    eapply in_creation_order_fmap; [| exact Hord].
    by eapply created_at_insert.
Qed.

(** ** Locks in reachable stores *)

Lemma lock_only_processing_step jobs jobs' :
  step jobs jobs' → lock_only_processing jobs → lock_only_processing jobs'.
Proof.
  unfold lock_only_processing.
  destruct 1 as [t_id rnd tc tu jobData jobs | now now2 w jobs
                 | now jobId st err jobs | now jobId err jobs
                 | tr tu jobId b jobs | now jobId jobs jobs' Hc
                 | now jobId jobs jobs' Hr]; intros Hinv.
  - simpl. apply Forall_app. split; [done |]. by repeat constructor.
  - unfold getNextJob.
    destruct (eligibleJobs now _ jobs) as [|[job idx] rest]; [done |].
    simpl. by apply Forall_insert.
  - unfold updateJobState. destruct (find_id jobId jobs) as [[i job]|];
      [| done]. by apply Forall_insert.
  - unfold setJobError.
    destruct (find_id jobId jobs) as [[i job]|] eqn:Hfind; [| done].
    apply Forall_insert; [done |].
    apply find_id_Some in Hfind as (Hi & _ & _).
    by apply (Forall_lookup_1 _ _ _ _ Hinv Hi).
  - unfold incrementAttempts.
    destruct (find_id jobId jobs) as [[i job]|]; [| done].
    destruct (_ >=? _); by apply Forall_insert.
  - unfold cancelJob in Hc. destruct (find_id jobId jobs) as [[i job]|];
      [| done].
    repeat case_decide; simplify_eq. by apply Forall_insert.
  - unfold retryFromDLQ in Hr.
    destruct (list_find _ jobs) as [[i job]|] eqn:Hfind; [| done].
    simplify_eq. apply Forall_insert; [done |].
    apply list_find_Some in Hfind as (Hi & [_ Hst] & _).
    pose proof (Forall_lookup_1 _ _ _ _ Hinv Hi) as Hjob. simpl in *.
    intros _. apply Hjob. by rewrite Hst.
Qed.

Lemma reachable_lock_only_processing jobs :
  reachable jobs → lock_only_processing jobs.
Proof.
  induction 1 as [|jobs jobs' _ IH Hstep]; [constructor |].
  by eapply lock_only_processing_step.
Qed.


(** ** The job handed out *)




(** The store of that counterexample is none the operations reach. *)
Lemma store_locked_completed_unreachable : ¬ reachable store_locked_completed.
Proof.
  intros Hlock%reachable_lock_only_processing.
  apply Forall_cons_1 in Hlock as [Hjob _].
  by destruct Hjob.
Qed.




(** The store of that counterexample is reached by two calls of [enqueue]
    between which the clock was set back. *)
Lemma store_younger_first_reachable : reachable store_younger_first.
Proof.
  change store_younger_first
    with (enqueue 1000 "k3x9q0a7c" 1000 1000 (job_data "b" "echo A")
            (enqueue 2000 "k3x9q0a7b" 2000 2000 (job_data "a" "echo A")
               []).2).2.
  do 2 apply reachable_enqueue. apply reachable_init.
Qed.

(** ** Enqueueing *)

(** C2, as amended.  [enqueue] checks nothing: whatever the command and
    the id, it appends a pending job with 0 attempts, the id given or else a
    generated one; the ids of the store stay distinct exactly when they were
    distinct and the id of the new job is not among them. *)
Theorem enqueue_accepts_any_job t_id rnd t_created t_updated jobData jobs :
  let job := (enqueue t_id rnd t_created t_updated jobData jobs).1 in
  let jobs' := (enqueue t_id rnd t_created t_updated jobData jobs).2 in
  jobs' = jobs ++ [job]
  ∧ id job = or_string (jd_id jobData) (generateId t_id rnd)
  ∧ command job = jd_command jobData
  ∧ state job = pending ∧ attempts job = 0%nat
  ∧ (ids_unique jobs'
     ↔ ids_unique jobs ∧ Forall (λ other, id other ≠ id job) jobs).
Proof.
  intros job jobs'. split_and!; try done.
  change jobs' with (jobs ++ [job]). clearbody job. clear jobs'.
  unfold ids_unique. rewrite Forall_forall. split.
  - intros Huniq. split.
    + intros i1 i2 j1 j2 H1 H2. apply Huniq; by apply lookup_app_l_Some.
    + intros other [i Hi]%list_elem_of_lookup Hid.
      pose proof (lookup_lt_Some _ _ _ Hi) as Hlt.
      assert (i = length jobs); [| lia].
      apply (Huniq i (length jobs) other job); [by apply lookup_app_l_Some
                                               | | done].
      by rewrite list_lookup_middle.
  - intros [Huniq Hfresh] i1 i2 j1 j2.
    rewrite !lookup_app_Some, !list_lookup_singleton_Some.
    intros [H1 | (Hl1 & Hz1 & <-)] [H2 | (Hl2 & Hz2 & <-)] Hid.
    + by eapply Huniq.
    + destruct (Hfresh j1); [by eapply list_elem_of_lookup_2 | done].
    + destruct (Hfresh j2); [by eapply list_elem_of_lookup_2 | done].
    + lia.
Qed.

(** C2 fails as stated: enqueueing the id ["j1"] twice succeeds and
    reaches a store with two jobs of that id; an empty command is accepted. *)
Lemma enqueue_accepts_duplicate_id :
  reachable store_twins
  ∧ ¬ ids_unique store_twins
  ∧ (∃ first second : Job,
       store_twins = [first; second] ∧ id first = "j1" ∧ id second = "j1")
  ∧ (∃ job : Job,
       enqueue 1000 "k3x9q0a7b" 1000 1000
         {| jd_id := Some "j2"; jd_command := Some ""; jd_max_retries := None;
            jd_priority := None; jd_timeout := None |} store_enqueued
       = (job, store_enqueued ++ [job])
       ∧ command job = Some "").
Proof.
  split_and!.
  - unfold store_twins, store_enqueued.
    repeat (eapply reachable_step; [| apply step_enqueue]).
    apply reachable_init.
  - intros Huniq.
    by pose proof (Huniq 0%nat 1%nat _ _ eq_refl eq_refl eq_refl).
  - by do 2 eexists.
  - by eexists.
Qed.

(** C2: a witness, a second job with an id of its own. *)
Lemma enqueue_accepts_any_job_witness :
  ids_unique store_enqueued
  ∧ Forall (λ other, id other ≠ "j2") store_enqueued
  ∧ ids_unique
      (enqueue 2000 "k3x9q0a7c" 2000 2000 (job_data "j2" "echo B")
         store_enqueued).2.
Proof.
  assert (Hone : ids_unique store_enqueued).
  { intros i1 i2 j1 j2 H1 H2 _.
    apply lookup_lt_Some in H1, H2. simpl in *. lia. }
  assert (Hnew : Forall (λ other, id other ≠ "j2") store_enqueued)
    by (repeat constructor; discriminate).
  split_and!; [done.. |].
  apply (proj2 (proj2 (proj2 (proj2 (proj2
           (enqueue_accepts_any_job 2000 "k3x9q0a7c" 2000 2000
              (job_data "j2" "echo B") store_enqueued)))))).
  split; [exact Hone | exact Hnew].
Defined.

(** ** Metrics *)

Lemma foldl_add_sum (l : list Z) (a : Z) : foldl Z.add a l = a + sum_Z l.
Proof.
  revert a. induction l as [|x l IH]; intros a; simpl; [lia |].
  rewrite IH. lia.
Qed.







(** ** The configuration *)

Lemma validKeys_spec (key : string) :
  key ∈ ConfigManager.validKeys ↔ key = "max-retries" ∨ key = "backoff-base".
Proof.
  unfold ConfigManager.validKeys.
  rewrite !elem_of_cons, elem_of_nil. tauto.
Qed.






(** A literal followed by a letter that cannot continue it is read as the
    literal alone. *)
Lemma parseFloat_ignores_suffix (rest : string) :
  ConfigManager.parseFloat ("5abc" +:+ rest) = ConfigManager.Finite 5.
Proof. reflexivity. Qed.




(** * Further properties *)

(** ** What every call keeps *)

Lemma same_identity_refl j : same_identity j j.
Proof. by repeat split. Qed.

Lemma same_identity_trans j1 j2 j3 :
  same_identity j1 j2 → same_identity j2 j3 → same_identity j1 j3.
Proof.
  unfold same_identity.
  intros (?&?&?&?&?&?) (?&?&?&?&?&?). split_and!; congruence.
Qed.

(** Writing a job of the same identity over a job keeps every position. *)
Lemma insert_keeps_identity (jobs : list Job) (i0 : nat) j0 j0' :
  jobs !! i0 = Some j0 → same_identity j0 j0' →
  length (<[i0 := j0']> jobs) = length jobs
  ∧ ∀ i j, jobs !! i = Some j →
      ∃ j', <[i0 := j0']> jobs !! i = Some j' ∧ same_identity j j'.
Proof.
  intros H0 Hsame. split; [apply length_insert |].
  intros i j Hi. destruct (decide (i = i0)) as [->|Hne].
  - exists j0'. rewrite list_lookup_insert_eq by by eapply lookup_lt_Some.
    by simplify_eq.
  - exists j. rewrite list_lookup_insert_ne by done.
    split; [done | apply same_identity_refl].
Qed.

Lemma step_keeps_identity jobs jobs' :
  step jobs jobs' →
  (length jobs ≤ length jobs' ≤ length jobs + 1)%nat
  ∧ ∀ i j, jobs !! i = Some j →
      ∃ j', jobs' !! i = Some j' ∧ same_identity j j'.
Proof.
  assert (Hins : ∀ (jobs : list Job) i0 j0 j0',
            jobs !! i0 = Some j0 → same_identity j0 j0' →
            (length jobs ≤ length (<[i0 := j0']> jobs) ≤ length jobs + 1)%nat
            ∧ ∀ i j, jobs !! i = Some j →
                ∃ j', <[i0 := j0']> jobs !! i = Some j' ∧ same_identity j j').
  { intros l i0 j0 j0' H0 Hs.
    destruct (insert_keeps_identity l i0 j0 j0' H0 Hs) as [Hlen Hall].
    split; [lia | done]. }
  assert (Hid : ∀ jobs : list Job,
            (length jobs ≤ length jobs ≤ length jobs + 1)%nat
            ∧ ∀ i j, jobs !! i = Some j →
                ∃ j', jobs !! i = Some j' ∧ same_identity j j').
  { intros l. split; [lia |]. intros i j Hi. exists j.
    split; [done | apply same_identity_refl]. }
  destruct 1 as [t_id rnd tc tu jobData jobs | now now2 w jobs
                 | now jobId st err jobs | now jobId err jobs
                 | tr tu jobId b jobs | now jobId jobs jobs' Hc
                 | now jobId jobs jobs' Hr].
  - simpl. rewrite length_app. simpl. split; [lia |].
    intros i j Hi. exists j.
    split; [by apply lookup_app_l_Some | apply same_identity_refl].
  - unfold getNextJob.
    destruct (eligibleJobs now _ jobs) as [|[job idx] rest] eqn:Hel;
      [apply Hid |].
    apply eligibleJobs_head in Hel as (Hidx & _ & _). simpl.
    by eapply Hins.
  - unfold updateJobState.
    destruct (find_id jobId jobs) as [[i0 job]|] eqn:Hfind; [| apply Hid].
    apply find_id_Some in Hfind as (Hi & _ & _). by eapply Hins.
  - unfold setJobError.
    destruct (find_id jobId jobs) as [[i0 job]|] eqn:Hfind; [| apply Hid].
    apply find_id_Some in Hfind as (Hi & _ & _). by eapply Hins.
  - unfold incrementAttempts.
    destruct (find_id jobId jobs) as [[i0 job]|] eqn:Hfind; [| apply Hid].
    apply find_id_Some in Hfind as (Hi & _ & _).
    destruct (_ >=? _); by eapply Hins.
  - unfold cancelJob in Hc.
    destruct (find_id jobId jobs) as [[i0 job]|] eqn:Hfind; [| done].
    apply find_id_Some in Hfind as (Hi & _ & _).
    repeat case_decide; simplify_eq. by eapply Hins.
  - unfold retryFromDLQ in Hr.
    destruct (list_find _ jobs) as [[i0 job]|] eqn:Hfind; [| done].
    apply list_find_Some in Hfind as (Hi & _ & _). simplify_eq.
    by eapply Hins.
Qed.

(** X1.  No call of a store operation deletes a job, moves it to another
    position or changes its id, command, [created_at], [max_retries],
    [priority] or [timeout]: after any number of calls every job of the store
    is where it was, with the same identity, and the store is no shorter. *)
Theorem jobs_are_kept jobs jobs' :
  rtc step jobs jobs' →
  (length jobs ≤ length jobs')%nat
  ∧ ∀ i j, jobs !! i = Some j →
      ∃ j', jobs' !! i = Some j' ∧ same_identity j j'.
Proof.
  induction 1 as [jobs | jobs jobs1 jobs2 Hstep _ [IHlen IH]].
  - split; [lia |]. intros i j Hi. exists j.
    split; [done | apply same_identity_refl].
  - destruct (step_keeps_identity _ _ Hstep) as [Hlen Hkeep].
    split; [lia |]. intros i j Hi.
    destruct (Hkeep i j Hi) as (j1 & Hi1 & Hs1).
    destruct (IH i j1 Hi1) as (j2 & Hi2 & Hs2).
    exists j2. split; [done | by eapply same_identity_trans].
Qed.

(** X1: a witness. *)
Lemma jobs_are_kept_witness :
  rtc step store_enqueued store_failed_once
  ∧ (length store_enqueued ≤ length store_failed_once)%nat
  ∧ ∀ i j, store_enqueued !! i = Some j →
      ∃ j', store_failed_once !! i = Some j' ∧ same_identity j j'.
Proof.
  assert (H : rtc step store_enqueued store_failed_once).
  { unfold store_failed_once, fail, store_claimed.
    eapply rtc_l; [apply step_getNextJob |].
    eapply rtc_l; [apply step_setJobError |].
    apply rtc_once, step_incrementAttempts. }
  split; [exact H |]. exact (jobs_are_kept _ _ H).
Defined.

(** ** States in service *)

Lemma call_step jobs jobs' : call jobs jobs' → step jobs jobs'.
Proof.
  destruct 1; [apply step_enqueue | apply step_getNextJob
    | apply step_updateJobState | apply step_setJobError
    | apply step_incrementAttempts | by eapply step_cancelJob
    | by eapply step_retryFromDLQ].
Qed.

Lemma in_service_reachable jobs : in_service jobs → reachable jobs.
Proof.
  induction 1 as [|jobs jobs' _ IH Hcall]; [apply reachable_init |].
  eapply reachable_step; [exact IH | by apply call_step].
Qed.

Lemma call_state_consistent jobs jobs' :
  call jobs jobs' →
  Forall state_consistent jobs → Forall state_consistent jobs'.
Proof.
  destruct 1 as [t_id rnd tc tu jobData jobs | now now2 w jobs
                 | now jobId jobs | now jobId message jobs
                 | tr tu jobId b jobs | now jobId jobs jobs' Hc
                 | now jobId jobs jobs' Hr]; intros Hinv.
  - simpl. apply Forall_app. split; [done |].
    repeat constructor; simpl; done.
  - unfold getNextJob.
    destruct (eligibleJobs now _ jobs) as [|[job idx] rest]; [done |].
    simpl. apply Forall_insert; [done |].
    repeat split; simpl; try done; by eexists.
  - unfold complete, updateJobState.
    destruct (find_id jobId jobs) as [[i job]|]; [| done].
    apply Forall_insert; [done |]. repeat split; simpl; done.
  - unfold setJobError.
    destruct (find_id jobId jobs) as [[i job]|] eqn:Hfind; [| done].
    apply Forall_insert; [done |].
    apply find_id_Some in Hfind as (Hi & _ & _).
    exact (Forall_lookup_1 _ _ _ _ Hinv Hi).
  - unfold incrementAttempts.
    destruct (find_id jobId jobs) as [[i job]|]; [| done].
    destruct (Z.geb_spec (Z.of_nat (attempts job + 1)) (max_retries job));
      (apply Forall_insert; [done |]); repeat split; simpl;
      first [done | by eexists | intros; lia].
  - unfold cancelJob in Hc. destruct (find_id jobId jobs) as [[i job]|];
      [| done].
    repeat case_decide; simplify_eq.
    apply Forall_insert; [done |]. repeat split; simpl; done.
  - unfold retryFromDLQ in Hr.
    destruct (list_find _ jobs) as [[i job]|]; [| done]. simplify_eq.
    apply Forall_insert; [done |]. repeat split; simpl; done.
Qed.

Lemma in_service_store_claimed : in_service store_claimed.
Proof.
  eapply in_service_call; [| apply call_getNextJob].
  eapply in_service_call; [apply in_service_init | apply call_enqueue].
Qed.

Lemma in_service_store_failed_once : in_service store_failed_once.
Proof.
  unfold store_failed_once, fail.
  eapply in_service_call; [| apply call_incrementAttempts].
  eapply in_service_call; [| apply call_setJobError].
  apply in_service_store_claimed.
Qed.

Lemma in_service_consistent jobs :
  in_service jobs → Forall state_consistent jobs.
Proof.
  induction 1 as [|jobs jobs' _ IH Hcall]; [constructor |].
  by eapply call_state_consistent.
Qed.

(** X2.  In every store that the command line and the workers lead to, a
    pending job has no attempt counted and no retry instant, a failed job has
    a retry instant and fewer attempts than [max_retries], and a dead job has
    at least [max_retries - 1] attempts counted. *)
Theorem in_service_counters jobs job :
  in_service jobs → job ∈ jobs →
  (state job = pending → attempts job = 0%nat ∧ next_retry_at job = None)
  ∧ (state job = failed →
     is_Some (next_retry_at job) ∧ Z.of_nat (attempts job) < max_retries job)
  ∧ (state job = dead → max_retries job ≤ Z.of_nat (attempts job) + 1).
Proof.
  intros Hs Hin. pose proof (in_service_consistent _ Hs) as Hc.
  rewrite Forall_forall in Hc. destruct (Hc job Hin) as (? & ? & ? & _).
  done.
Qed.

(** X2: a witness. *)
Lemma in_service_counters_witness :
  ∃ job, store_failed_once !! 0%nat = Some job
    ∧ state job = failed
    ∧ is_Some (next_retry_at job)
    ∧ Z.of_nat (attempts job) < max_retries job.
Proof.
  assert (H : ∃ job, store_failed_once !! 0%nat = Some job
                     ∧ state job = failed)
    by (eexists; split; vm_compute; reflexivity).
  destruct H as (job & Hjob & Hstate). exists job.
  split; [exact Hjob |]. split; [exact Hstate |].
  apply (in_service_counters store_failed_once job
           in_service_store_failed_once
           (list_elem_of_lookup_2 _ _ _ Hjob)).
  exact Hstate.
Defined.

(** X3.  In every store that the command line and the workers lead to, a
    job carries a lock exactly while it is processing, and [locked_by] and
    [locked_at] are set together. *)
Theorem in_service_locks jobs job :
  in_service jobs → job ∈ jobs →
  (state job = processing ↔ is_Some (locked_by job))
  ∧ (is_Some (locked_by job) ↔ is_Some (locked_at job)).
Proof.
  intros Hs Hin.
  pose proof (in_service_consistent _ Hs) as Hc.
  pose proof (reachable_lock_only_processing _ (in_service_reachable _ Hs))
    as Hl.
  unfold lock_only_processing in Hl. rewrite Forall_forall in Hc, Hl.
  destruct (Hc job Hin) as (_ & _ & _ & Hp). specialize (Hl job Hin).
  destruct (decide (state job = processing)) as [Hst|Hst].
  - destruct (Hp Hst) as [Hby Hat]. split; split; done.
  - destruct (Hl Hst) as [-> ->]. split; split; try done; by intros [? ?].
Qed.

(** X3: a witness. *)
Lemma in_service_locks_witness :
  ∃ job, store_claimed !! 0%nat = Some job
    ∧ (state job = processing ↔ is_Some (locked_by job))
    ∧ (is_Some (locked_by job) ↔ is_Some (locked_at job)).
Proof.
  assert (H : ∃ job, store_claimed !! 0%nat = Some job)
    by (eexists; vm_compute; reflexivity).
  destruct H as (job & Hjob). exists job. split; [exact Hjob |].
  exact (in_service_locks store_claimed job in_service_store_claimed
           (list_elem_of_lookup_2 _ _ _ Hjob)).
Defined.

(** ** What enqueue stores *)

Lemma or_number_nonzero o d : d ≠ 0 → or_number o d ≠ 0.
Proof.
  intros Hd. unfold or_number. destruct o as [n|]; [| done].
  destruct (Z.eqb_spec n 0); done.
Qed.

Lemma or_string_nonempty o d : d ≠ "" → or_string o d ≠ "".
Proof.
  intros Hd. unfold or_string. destruct o as [s|]; [| done].
  destruct (String.eqb_spec s ""); done.
Qed.

(** A property of the identity of jobs that [enqueue] establishes holds in
    every store the operations reach. *)
Lemma reachable_identity (P : Job → Prop) :
  (∀ j j', same_identity j j' → P j → P j') →
  (∀ t_id rnd tc tu jobData jobs,
     P (enqueue t_id rnd tc tu jobData jobs).1) →
  ∀ jobs, reachable jobs → Forall P jobs.
Proof.
  intros Hsame Hnew jobs.
  induction 1 as [|jobs jobs' _ IH Hstep]; [constructor |].
  apply Forall_lookup_2. intros i job Hi.
  destruct (jobs !! i) as [old|] eqn:Hold.
  - destruct (step_keeps_identity _ _ Hstep) as [_ Hkeep].
    destruct (Hkeep i old Hold) as (job' & Hi' & Hs).
    assert (job' = job) as -> by congruence.
    apply (Hsame old); [done |]. by apply (Forall_lookup_1 _ _ _ _ IH Hold).
  - apply lookup_ge_None in Hold. apply lookup_lt_Some in Hi as Hlt.
    destruct Hstep as [t_id rnd tc tu jobData jobs | now now2 w jobs
                 | now jobId st err jobs | now jobId err jobs
                 | tr tu jobId b jobs | now jobId jobs jobs' Hc
                 | now jobId jobs jobs' Hr].
    + simpl in Hi. apply lookup_app_Some in Hi as [Hi | [_ Hi]].
      { apply lookup_lt_Some in Hi. lia. }
      apply list_lookup_singleton_Some in Hi as [_ <-].
      apply (Hnew t_id rnd tc tu jobData jobs).
    + unfold getNextJob in Hlt.
      destruct (eligibleJobs _ _ _) as [|[? ?] ?]; simpl in Hlt;
        [| rewrite length_insert in Hlt]; lia.
    + unfold updateJobState in Hlt. destruct (find_id _ _) as [[? ?]|];
        [rewrite length_insert in Hlt |]; lia.
    + unfold setJobError in Hlt. destruct (find_id _ _) as [[? ?]|];
        [rewrite length_insert in Hlt |]; lia.
    + unfold incrementAttempts in Hlt. destruct (find_id _ _) as [[? ?]|];
        [destruct (_ >=? _); rewrite length_insert in Hlt |]; lia.
    + unfold cancelJob in Hc. destruct (find_id _ _) as [[? ?]|]; [| done].
      repeat case_decide; simplify_eq. rewrite length_insert in Hlt. lia.
    + unfold retryFromDLQ in Hr. destruct (list_find _ _) as [[? ?]|];
        [| done].
      simplify_eq. rewrite length_insert in Hlt. lia.
Qed.

(** X4.  Every job of a reachable store has a non-empty id and a
    [max_retries], a [priority] and a [timeout] other than 0: [enqueue] puts
    its defaults in the place of an empty id and of a 0, and no operation
    changes these fields afterwards. *)
Theorem reachable_well_formed jobs job :
  reachable jobs → job ∈ jobs → well_formed job.
Proof.
  intros Hreach Hin.
  assert (Hall : Forall well_formed jobs).
  { apply reachable_identity; [| | done].
    - intros j j' (E1 & _ & _ & E2 & E3 & E4) (H1 & H2 & H3 & H4).
      unfold well_formed. by rewrite E1, E2, E3, E4.
    - intros. split_and!; simpl.
      + by apply or_string_nonempty.
      + by apply or_number_nonzero.
      + by apply or_number_nonzero.
      + by apply or_number_nonzero. }
  rewrite Forall_forall in Hall. by apply Hall.
Qed.

(** X4: a witness. *)
Lemma reachable_well_formed_witness :
  ∃ job, store_enqueued !! 0%nat = Some job ∧ well_formed job.
Proof.
  assert (H : ∃ job, store_enqueued !! 0%nat = Some job)
    by (eexists; vm_compute; reflexivity).
  destruct H as (job & Hjob). exists job. split; [exact Hjob |].
  exact (reachable_well_formed store_enqueued job reachable_store_enqueued
           (list_elem_of_lookup_2 _ _ _ Hjob)).
Defined.

(** ** One job, one worker *)

Lemma getNextJob_Some now now2 workerId jobs picked jobs' :
  getNextJob now now2 workerId jobs = (Some picked, jobs') →
  ∃ idx job,
    jobs !! idx = Some job
    ∧ eligible now (now2 - 5 * 60 * 1000) job
    ∧ picked = lock_job workerId now job
    ∧ jobs' = <[idx := picked]> jobs
    ∧ jobs' !! idx = Some picked.
Proof.
  unfold getNextJob.
  destruct (eligibleJobs now _ jobs) as [|[job idx] rest] eqn:Hel; [done |].
  apply eligibleJobs_head in Hel as (Hidx & He & _).
  assert (Hlook : <[idx := lock_job workerId now job]> jobs !! idx
                  = Some (lock_job workerId now job)).
  { apply list_lookup_insert_eq. by eapply lookup_lt_Some. }
  rewrite Hlook. intros [= <- <-]. by exists idx, job.
Qed.

(** [getNextJob] leaves every job alone that does not pass its filter. *)
Lemma getNextJob_keeps_ineligible now now2 workerId (jobs : list Job) i job :
  jobs !! i = Some job →
  eligible now (now2 - 5 * 60 * 1000) job = false →
  (getNextJob now now2 workerId jobs).2 !! i = Some job.
Proof.
  intros Hi Hno.
  destruct (getNextJob now now2 workerId jobs) as [[picked|] jobs'] eqn:Hget.
  - apply getNextJob_Some in Hget as (idx & job0 & Hidx & He & _ & -> & _).
    simpl. destruct (decide (idx = i)) as [->|Hne].
    + rewrite Hi in Hidx. injection Hidx as <-. rewrite Hno in He.
      destruct He.
    + by rewrite list_lookup_insert_ne.
  - unfold getNextJob in Hget.
    destruct (eligibleJobs now _ jobs) as [|[job0 idx] rest] eqn:Hel.
    + by simplify_eq.
    + apply eligibleJobs_head in Hel as (Hidx & _ & _).
      rewrite list_lookup_insert_eq in Hget by by eapply lookup_lt_Some.
      done.
Qed.

(** X5.  A job that [getNextJob] has handed to a worker is not handed out
    again, and not changed, by any later call of [getNextJob] made before the
    lock is five minutes old, whichever worker asks. *)
Theorem handed_out_once now now2 workerId jobs picked jobs1 :
  getNextJob now now2 workerId jobs = (Some picked, jobs1) →
  ∃ idx, jobs1 !! idx = Some picked
    ∧ ∀ now' now2' workerId',
        now2' - 5 * 60 * 1000 ≤ now →
        (getNextJob now' now2' workerId' jobs1).2 !! idx = Some picked.
Proof.
  intros (idx & job & Hidx & He & -> & -> & Hlook)%getNextJob_Some.
  exists idx. split; [done |].
  intros now' now2' w' Hfresh.
  apply getNextJob_keeps_ineligible; [done |].
  unfold eligible, lock_job; simpl.
  destruct (Z.ltb_spec now (now2' - 5 * 60 * 1000)); [lia |].
  by rewrite andb_false_r.
Qed.

(** X5: a witness. *)
Lemma handed_out_once_witness :
  ∃ picked jobs1,
    getNextJob 2000 2000 "worker_1" store_enqueued = (Some picked, jobs1)
    ∧ ∃ idx, jobs1 !! idx = Some picked
        ∧ ∀ now' now2' workerId',
            now2' - 5 * 60 * 1000 ≤ 2000 →
            (getNextJob now' now2' workerId' jobs1).2 !! idx = Some picked.
Proof.
  assert (H : ∃ picked jobs1,
            getNextJob 2000 2000 "worker_1" store_enqueued
            = (Some picked, jobs1))
    by (do 2 eexists; vm_compute; reflexivity).
  destruct H as (picked & jobs1 & Hget). exists picked, jobs1.
  split; [exact Hget |]. exact (handed_out_once _ _ _ _ _ _ Hget).
Defined.








(** ** A worker reports *)


Lemma ids_unique_store_enqueued : ids_unique store_enqueued.
Proof.
  intros i1 i2 j1 j2 H1 H2 _.
  apply lookup_lt_Some in H1, H2. simpl in *. lia.
Qed.

(** X8.  In a store without duplicate ids, the success report of a worker
    reaches the job it was handed: [updateJobState(job.id, 'completed')] after
    [getNextJob] changes that position only, to a completed job without lock
    and without error, of the same identity and with the attempts it had. *)
Theorem claim_then_complete now now2 workerId t jobs picked jobs1 :
  ids_unique jobs →
  getNextJob now now2 workerId jobs = (Some picked, jobs1) →
  ∃ idx done_job,
    jobs1 !! idx = Some picked
    ∧ complete t (id picked) jobs1 = <[idx := done_job]> jobs1
    ∧ same_identity picked done_job
    ∧ state done_job = completed
    ∧ locked_by done_job = None ∧ locked_at done_job = None
    ∧ error done_job = None
    ∧ attempts done_job = attempts picked.
Proof.
  intros Huniq (idx & job & Hidx & He & -> & -> & Hlook)%getNextJob_Some.
  assert (Hfind : find_id (id job) (<[idx := lock_job workerId now job]> jobs)
                  = Some (idx, lock_job workerId now job))
    by by eapply find_id_insert.
  exists idx. eexists. split; [done |].
  unfold complete, updateJobState. simpl. rewrite Hfind.
  split; [reflexivity |]. by repeat split.
Qed.

(** X8: a witness. *)
Lemma claim_then_complete_witness :
  ids_unique store_enqueued
  ∧ ∃ picked jobs1,
      getNextJob 2000 2000 "worker_1" store_enqueued = (Some picked, jobs1)
      ∧ ∃ idx done_job,
          complete 3000 (id picked) jobs1 = <[idx := done_job]> jobs1
          ∧ state done_job = completed
          ∧ locked_by done_job = None.
Proof.
  split; [exact ids_unique_store_enqueued |].
  assert (H : ∃ picked jobs1,
            getNextJob 2000 2000 "worker_1" store_enqueued
            = (Some picked, jobs1))
    by (do 2 eexists; vm_compute; reflexivity).
  destruct H as (picked & jobs1 & Hget). exists picked, jobs1.
  split; [exact Hget |].
  destruct (claim_then_complete 2000 2000 "worker_1" 3000 store_enqueued
              picked jobs1 ids_unique_store_enqueued Hget)
    as (idx & done_job & _ & Heq & _ & Hstate & Hby & _).
  by exists idx, done_job.
Defined.



(** X10.  With a duplicate id the report goes astray: when the job handed
    out is not the first of the store with its id, [updateJobState] completes
    that first job and leaves the job handed out as it was, processing and
    locked by the worker. *)
Theorem report_reaches_first_twin now now2 workerId t jobs picked jobs1 k twin :
  getNextJob now now2 workerId jobs = (Some picked, jobs1) →
  find_id (id picked) jobs1 = Some (k, twin) →
  state twin ≠ processing →
  ∃ idx done_job,
    idx ≠ k
    ∧ jobs1 !! idx = Some picked
    ∧ complete t (id picked) jobs1 !! idx = Some picked
    ∧ state picked = processing ∧ locked_by picked = Some workerId
    ∧ complete t (id picked) jobs1 !! k = Some done_job
    ∧ state done_job = completed.
Proof.
  intros (idx & job & Hidx & He & -> & -> & Hlook)%getNextJob_Some Hfind Hst.
  pose proof (find_id_Some _ _ _ _ Hfind) as (Hk & _ & Hlen).
  assert (Hne : idx ≠ k).
  { intros ->. rewrite Hlook in Hk. injection Hk as <-. by destruct Hst. }
  exists idx. eexists. split; [done |]. split; [done |].
  unfold complete, updateJobState. rewrite Hfind.
  split; [by rewrite list_lookup_insert_ne |].
  split; [done |]. split; [done |].
  split; [by apply list_lookup_insert_eq | done].
Qed.

(** X10: a witness. *)
Lemma report_reaches_first_twin_witness :
  ∃ picked jobs1 twin,
    getNextJob 5000 5000 "worker_1" store_twin_done = (Some picked, jobs1)
    ∧ find_id (id picked) jobs1 = Some (0%nat, twin)
    ∧ state twin ≠ processing
    ∧ ∃ idx done_job,
        idx ≠ 0%nat
        ∧ complete 6000 (id picked) jobs1 !! idx = Some picked
        ∧ state picked = processing
        ∧ complete 6000 (id picked) jobs1 !! 0%nat = Some done_job.
Proof.
  assert (H : ∃ picked jobs1 twin,
            getNextJob 5000 5000 "worker_1" store_twin_done
            = (Some picked, jobs1)
            ∧ find_id (id picked) jobs1 = Some (0%nat, twin)
            ∧ state twin ≠ processing)
    by (do 3 eexists; split_and!;
        [vm_compute; reflexivity | vm_compute; reflexivity | by vm_compute]).
  destruct H as (picked & jobs1 & twin & Hget & Hfind & Hstate).
  exists picked, jobs1, twin.
  split; [exact Hget |]. split; [exact Hfind |]. split; [exact Hstate |].
  destruct (report_reaches_first_twin 5000 5000 "worker_1" 6000
              store_twin_done picked jobs1 0 twin Hget Hfind Hstate)
    as (idx & done_job & Hne & _ & Hkept & Hp & _ & Hdone & _).
  by exists idx, done_job.
Defined.

(** ** Failing until the dead letter queue *)





(** ** Listings *)

Lemma insert_job_Permutation compare x l : insert_job compare x l ≡ₚ x :: l.
Proof.
  induction l as [|y l IH]; simpl; [done |].
  destruct (compare x y <=? 0); [done |].
  rewrite IH. apply Permutation_swap.
Qed.

Lemma sort_jobs_Permutation compare l : sort_jobs compare l ≡ₚ l.
Proof.
  induction l as [|x l IH]; simpl; [done |].
  by rewrite insert_job_Permutation, IH.
Qed.

Section descending.

Variable key : Job → Z.

Let compare : Job → Job → Z := λ a b, key b - key a.
Let descending : relation Job := λ a b, key b ≤ key a.

Lemma insert_job_descending x l :
  StronglySorted descending l →
  StronglySorted descending (insert_job compare x l).
Proof.
  induction 1 as [|y l Hl IH Hy]; simpl.
  - by repeat constructor.
  - subst compare descending. simpl in *.
    destruct (Z.leb_spec (key y - key x) 0).
    + constructor; [by constructor |].
      constructor; [lia |].
      eapply Forall_impl; [exact Hy |]. simpl. intros; lia.
    + constructor; [done |].
      rewrite insert_job_Permutation. constructor; [lia | done].
Qed.

Lemma sort_jobs_descending l : StronglySorted descending (sort_jobs compare l).
Proof.
  induction l as [|x l IH]; simpl; [constructor |].
  by apply insert_job_descending.
Qed.

(** The sort is stable: jobs of one key keep their order. *)
Lemma insert_job_stable v x l :
  filter (λ j, key j = v) (insert_job compare x l)
  = filter (λ j, key j = v) (x :: l).
Proof.
  induction l as [|y l IH]; simpl; [done |].
  subst compare. simpl in *.
  destruct (Z.leb_spec (key y - key x) 0); [done |].
  rewrite filter_cons, IH, !filter_cons.
  destruct (decide (key y = v)), (decide (key x = v)); try done; lia.
Qed.

Lemma sort_jobs_stable v l :
  filter (λ j, key j = v) (sort_jobs compare l) = filter (λ j, key j = v) l.
Proof.
  induction l as [|x l IH]; simpl; [done |].
  rewrite insert_job_stable, !filter_cons, IH. done.
Qed.

(** A job with a key below all others goes to the end. *)
Lemma insert_job_last x l :
  Forall (λ y, key x < key y) l → insert_job compare x l = l ++ [x].
Proof.
  induction 1 as [|y l Hy _ IH]; simpl; [done |].
  subst compare. simpl in *.
  destruct (Z.leb_spec (key y - key x) 0); [lia |]. by rewrite IH.
Qed.

Lemma sort_jobs_reverse l :
  StronglySorted (λ a b, key a < key b) l → sort_jobs compare l = reverse l.
Proof.
  induction 1 as [|x l _ IH Hx]; simpl; [done |].
  rewrite IH, reverse_cons. apply insert_job_last.
  by rewrite Forall_reverse.
Qed.

End descending.

Lemma StronglySorted_filter_jobs (R : relation Job) (P : Job → Prop)
    `{!∀ j, Decision (P j)} l :
  StronglySorted R l → StronglySorted R (filter P l).
Proof.
  induction 1 as [|x l _ IH Hx]; [constructor |].
  rewrite filter_cons. case_decide; [| done].
  constructor; [done |]. rewrite Forall_forall in Hx |- *.
  intros y [_ Hy]%list_elem_of_filter. by apply Hx.
Qed.

(** X12.  [listJobs] returns the jobs of the store, or those of the state
    asked for, each as often as the store holds it, from the newest
    [created_at] to the oldest; jobs of one [created_at] stay in the order of
    the store. *)
Theorem listJobs_newest_first st jobs :
  listJobs st jobs ≡ₚ selected st jobs
  ∧ StronglySorted (λ a b, created_at b ≤ created_at a) (listJobs st jobs)
  ∧ ∀ t, filter (λ j, created_at j = t) (listJobs st jobs)
         = filter (λ j, created_at j = t) (selected st jobs).
Proof.
  destruct st as [s|]; simpl; split_and!;
    first [ apply sort_jobs_Permutation
          | apply (sort_jobs_descending created_at)
          | intros t; apply (sort_jobs_stable created_at) ].
Qed.

(** X13.  On a store whose jobs were created at strictly increasing
    instants, [listJobs] is the store in reverse, and [listJobs(state)] the
    jobs of that state in reverse. *)
Theorem listJobs_reverses_store jobs :
  StronglySorted (λ a b, created_at a < created_at b) jobs →
  listJobs None jobs = reverse jobs
  ∧ ∀ s, listJobs (Some s) jobs = reverse (filter (λ j, state j = s) jobs).
Proof.
  intros Hs. split; [by apply (sort_jobs_reverse created_at) |].
  intros s. apply (sort_jobs_reverse created_at).
  by apply StronglySorted_filter_jobs.
Qed.

(** X13: a witness. *)
Lemma listJobs_reverses_store_witness :
  StronglySorted (λ a b, created_at a < created_at b)
    [fresh_job "b" 5 1000; fresh_job "a" 5 2000]
  ∧ listJobs None [fresh_job "b" 5 1000; fresh_job "a" 5 2000]
    = [fresh_job "a" 5 2000; fresh_job "b" 5 1000].
Proof.
  assert (H : StronglySorted (λ a b, created_at a < created_at b)
                [fresh_job "b" 5 1000; fresh_job "a" 5 2000])
    by (repeat constructor; simpl; lia).
  split; [exact H |].
  exact (proj1 (listJobs_reverses_store _ H)).
Defined.

(** X14.  [listDLQ] returns exactly the dead jobs of the store, the same
    jobs as [listJobs('dead')], but ordered from the latest [updated_at] to
    the earliest; dead jobs of one [updated_at] stay in the order of the
    store. *)
Theorem listDLQ_latest_first jobs :
  (∀ job, job ∈ listDLQ jobs ↔ job ∈ jobs ∧ state job = dead)
  ∧ listDLQ jobs ≡ₚ listJobs (Some dead) jobs
  ∧ StronglySorted (λ a b, updated_at b ≤ updated_at a) (listDLQ jobs)
  ∧ ∀ t, filter (λ j, updated_at j = t) (listDLQ jobs)
         = filter (λ j, updated_at j = t ∧ state j = dead) jobs.
Proof.
  unfold listDLQ, listJobs. split_and!.
  - intros job. rewrite sort_jobs_Permutation, list_elem_of_filter. tauto.
  - by rewrite !sort_jobs_Permutation.
  - apply (sort_jobs_descending updated_at).
  - intros t. rewrite (sort_jobs_stable updated_at), list_filter_filter.
    done.
Qed.

(** ** The counters of getStatus *)

Lemma counter_count_job status job s :
  counter (count_job status job) s
  = (counter status s + if decide (state job = s) then 1 else 0)%nat.
Proof.
  destruct status as [p r c f d x]. unfold count_job.
  destruct (state job), s; simpl; lia.
Qed.

Lemma counter_foldl jobs : ∀ status s,
  counter (foldl count_job status jobs) s
  = (counter status s + length (filter (λ j, state j = s) jobs))%nat.
Proof.
  induction jobs as [|job jobs IH]; intros status s; simpl; [lia |].
  rewrite IH, counter_count_job, filter_cons.
  destruct (decide (state job = s)); simpl; lia.
Qed.

Lemma length_by_state (jobs : list Job) :
  length jobs
  = (length (filter (λ j, state j = pending) jobs)
     + length (filter (λ j, state j = processing) jobs)
     + length (filter (λ j, state j = completed) jobs)
     + length (filter (λ j, state j = failed) jobs)
     + length (filter (λ j, state j = dead) jobs)
     + length (filter (λ j, state j = cancelled) jobs))%nat.
Proof.
  induction jobs as [|job jobs IH]; [done |].
  rewrite !filter_cons. simpl length at 1. rewrite IH.
  destruct (state job); repeat case_decide; try done; simpl; lia.
Qed.

Lemma getStatus_counter jobs s :
  counter (getStatus jobs) s = length (filter (λ j, state j = s) jobs).
Proof. unfold getStatus. rewrite counter_foldl. by destruct s. Qed.

(** X15.  Each counter of [getStatus] is the number of jobs of the store in
    that state, and the six counters add up to the number of jobs. *)
Theorem getStatus_counts jobs :
  (∀ s, counter (getStatus jobs) s = length (filter (λ j, state j = s) jobs))
  ∧ (count_pending (getStatus jobs) + count_processing (getStatus jobs)
     + count_completed (getStatus jobs) + count_failed (getStatus jobs)
     + count_dead (getStatus jobs) + count_cancelled (getStatus jobs)
     = length jobs)%nat.
Proof.
  pose proof (getStatus_counter jobs) as H.
  split; [exact H |].
  rewrite (length_by_state jobs), <- !H. done.
Qed.

(** X16.  [getMetrics] and [getStatus] agree on every store:
    [completedJobs] is the counter of completed jobs, and [totalJobs] is the
    sum of the six counters. *)
Theorem getStatus_agrees_with_getMetrics jobs :
  completedJobs (getMetrics jobs) = count_completed (getStatus jobs)
  ∧ (totalJobs (getMetrics jobs)
     = count_pending (getStatus jobs) + count_processing (getStatus jobs)
       + count_completed (getStatus jobs) + count_failed (getStatus jobs)
       + count_dead (getStatus jobs) + count_cancelled (getStatus jobs))%nat.
Proof.
  pose proof (getStatus_counter jobs) as H.
  assert (Ht : totalJobs (getMetrics jobs) = length jobs).
  { unfold getMetrics. by case_decide. }
  split.
  - change (count_completed (getStatus jobs))
      with (counter (getStatus jobs) completed). rewrite H.
    unfold getMetrics. case_decide as E; simpl; [by rewrite E | done].
  - rewrite Ht, (length_by_state jobs).
    change (count_pending (getStatus jobs))
      with (counter (getStatus jobs) pending).
    change (count_processing (getStatus jobs))
      with (counter (getStatus jobs) processing).
    change (count_completed (getStatus jobs))
      with (counter (getStatus jobs) completed).
    change (count_failed (getStatus jobs))
      with (counter (getStatus jobs) failed).
    change (count_dead (getStatus jobs))
      with (counter (getStatus jobs) dead).
    change (count_cancelled (getStatus jobs))
      with (counter (getStatus jobs) cancelled).
    by rewrite !H.
Qed.

(** ** Looking up what was enqueued *)

(** X17.  [getJob] after [enqueue]: an id that the store already held is
    still looked up as the older job, the id of the new job included, which
    the new job then cannot be looked up under; an id the store did not hold
    finds the new job if it is its id, and nothing otherwise. *)
Theorem getJob_after_enqueue t_id rnd t_created t_updated jobData jobs jobId :
  let '(job, jobs') := enqueue t_id rnd t_created t_updated jobData jobs in
  getJob jobId jobs'
  = match getJob jobId jobs with
    | Some older => Some older
    | None => if decide (id job = jobId) then Some job else None
    end.
Proof.
  simpl. unfold getJob, find_id.
  destruct (list_find (λ j, id j = jobId) jobs) as [[i older]|] eqn:Hfind.
  - simpl. erewrite list_find_app_l; [done | exact Hfind].
  - simpl. rewrite list_find_app_r by done.
    cbn [list_find id]. by destruct (decide _).
Qed.

(** ** Reading back what was set *)

Lemma accepted_number numValue :
  ConfigManager.rejected numValue = false →
  numValue = ConfigManager.Infinity false
  ∨ ∃ q, numValue = ConfigManager.Finite q ∧ (0 < q)%Q.
Proof.
  destruct numValue as [|[]|q]; simpl; try done; [by left |].
  intros Hq. right. exists q. split; [done |].
  destruct (Qlt_le_dec 0 q) as [|Hle]; [done |].
  apply Qle_bool_iff in Hle. congruence.
Qed.

Lemma get_insert_positive key q (config : gmap string (option Q)) :
  (0 < q)%Q → ConfigManager.get key (<[key := Some q]> config) = Some q.
Proof.
  intros Hq. unfold ConfigManager.get. rewrite lookup_insert_eq.
  destruct (Qeq_bool q 0) eqn:E; [| done].
  apply Qeq_bool_iff in E. rewrite E in Hq. by apply Qlt_irrefl in Hq.
Qed.

Lemma set_inr key value config config' :
  ConfigManager.set key value config = inr config' →
  key ∈ ConfigManager.validKeys
  ∧ ConfigManager.rejected (ConfigManager.parseFloat value) = false
  ∧ config' = <[key := ConfigManager.to_JSON (ConfigManager.parseFloat value)]>
                config.
Proof.
  unfold ConfigManager.set.
  destruct (bool_decide (key ∈ ConfigManager.validKeys)) eqn:Hkey; [| done].
  apply bool_decide_eq_true in Hkey. simpl.
  destruct (ConfigManager.rejected _) eqn:Hrej; [done |].
  by intros [= <-].
Qed.

(** X18.  [get] after a successful [set]: the key reads the number that
    [parseFloat] read from the value, a positive one, except that a value
    read as [Infinity] is written as [null] and reads [null]; every other key
    reads what it read before. *)
Theorem set_then_get key value config config' :
  ConfigManager.set key value config = inr config' →
  ConfigManager.get key config'
  = ConfigManager.to_JSON (ConfigManager.parseFloat value)
  ∧ (∀ q, ConfigManager.get key config' = Some q → (0 < q)%Q)
  ∧ (ConfigManager.get key config' = None
     ↔ ConfigManager.parseFloat value = ConfigManager.Infinity false)
  ∧ ∀ other, other ≠ key →
      ConfigManager.get other config' = ConfigManager.get other config.
Proof.
  intros (Hkey & Hacc & ->)%set_inr.
  assert (Hother : ∀ other, other ≠ key →
            ConfigManager.get other
              (<[key := ConfigManager.to_JSON (ConfigManager.parseFloat value)]>
                 config)
            = ConfigManager.get other config).
  { intros other Hne. unfold ConfigManager.get.
    by rewrite lookup_insert_ne. }
  destruct (accepted_number _ Hacc) as [E | (q & E & Hq)];
    rewrite E in Hother |- *; simpl in Hother |- *.
  - assert (Hget : ConfigManager.get key (<[key := None]> config) = None).
    { unfold ConfigManager.get. by rewrite lookup_insert_eq. }
    rewrite Hget. split_and!; [done | done | by split | exact Hother].
  - rewrite get_insert_positive by done.
    split_and!; [done | by intros ? [= <-] | by split | exact Hother].
Qed.

(** X18: a witness. *)
Lemma set_then_get_witness :
  ∃ config',
    ConfigManager.set "backoff-base" "1.5" ConfigManager.defaults
    = inr config'
    ∧ ConfigManager.get "backoff-base" config'
      = ConfigManager.to_JSON (ConfigManager.parseFloat "1.5")
    ∧ ConfigManager.get "max-retries" config'
      = ConfigManager.get "max-retries" ConfigManager.defaults.
Proof.
  assert (H : ∃ config',
            ConfigManager.set "backoff-base" "1.5" ConfigManager.defaults
            = inr config') by (eexists; reflexivity).
  destruct H as (config' & Hset). exists config'. split; [exact Hset |].
  destruct (set_then_get "backoff-base" "1.5" ConfigManager.defaults config'
              Hset) as (Hget & _ & _ & Hother).
  split; [exact Hget |]. by apply Hother.
Defined.

Lemma configured_values config :
  configured config →
  ∀ key v, config !! key = Some v →
    key ∈ ConfigManager.validKeys ∧ ∀ q, v = Some q → (0 < q)%Q.
Proof.
  induction 1 as [|key value config config' _ IH Hset]; intros k v Hk.
  - unfold ConfigManager.defaults in Hk.
    apply lookup_insert_Some in Hk as [[<- <-] | [_ Hk]].
    { split; [apply validKeys_spec; by left | by intros ? [= <-]]. }
    apply lookup_insert_Some in Hk as [[<- <-] | [_ Hk]]; [| done].
    split; [apply validKeys_spec; by right | by intros ? [= <-]].
  - apply set_inr in Hset as (Hkey & Hacc & ->).
    apply lookup_insert_Some in Hk as [[<- <-] | [_ Hk]]; [| by apply IH].
    split; [done |]. intros q Hq.
    destruct (accepted_number _ Hacc) as [E | (q' & E & Hq')];
      rewrite E in Hq; simpl in Hq; [done |]. by injection Hq as <-.
Qed.

Lemma configured_number config key q :
  configured config → ConfigManager.get key config = Some q →
  (0 < q)%Q ∧ config !! key = Some (Some q).
Proof.
  intros Hc. pose proof (configured_values config Hc key) as Hv.
  unfold ConfigManager.get.
  destruct (config !! key) as [[q'|]|] eqn:Hk; [| done..].
  destruct (Hv _ eq_refl) as [_ Hq]. specialize (Hq q' eq_refl).
  destruct (Qeq_bool q' 0); [done |]. by intros [= <-].
Qed.

Lemma configured_base config key :
  configured config → (0 <= to_number (ConfigManager.get key config))%Q.
Proof.
  intros Hc. destruct (ConfigManager.get key config) as [q|] eqn:Hget.
  - apply (configured_number _ _ _ Hc) in Hget as [Hq _].
    by apply Qlt_le_weak.
  - done.
Qed.

(** X19.  In every configuration that calls of [set] lead to from the
    defaults, the object in [config.json] has no property but the two valid
    keys; every number [get] gives for a valid key is positive and is the one
    stored, and the backoff base a worker computes with, [null] counting as
    0, is never negative. *)
Theorem configured_get config :
  configured config →
  (∀ key, is_Some (config !! key) → key ∈ ConfigManager.validKeys)
  ∧ ∀ key, key ∈ ConfigManager.validKeys →
      (∀ q, ConfigManager.get key config = Some q →
         (0 < q)%Q ∧ config !! key = Some (Some q))
      ∧ (0 <= to_number (ConfigManager.get key config))%Q.
Proof.
  intros Hc. split.
  - intros key [v Hv]. by destruct (configured_values config Hc key v Hv).
  - intros key _. split.
    + intros q. by apply configured_number.
    + by apply configured_base.
Qed.

(** X19: a witness. *)
Lemma configured_get_witness :
  configured ConfigManager.defaults
  ∧ "backoff-base" ∈ ConfigManager.validKeys
  ∧ (0 <= to_number
            (ConfigManager.get "backoff-base" ConfigManager.defaults))%Q.
Proof.
  assert (Hkey : "backoff-base" ∈ ConfigManager.validKeys)
    by (apply validKeys_spec; by right).
  split; [exact configured_init |]. split; [exact Hkey |].
  exact (proj2 (proj2 (configured_get ConfigManager.defaults configured_init)
                  "backoff-base" Hkey)).
Defined.

(** ** The retry a worker schedules *)



(** ** Starting the workers *)

Lemma worker_id_inj (i k : nat) :
  "worker_" +:+ pretty (i + 1)%nat = "worker_" +:+ pretty (k + 1)%nat → i = k.
Proof.
  intros H. simpl in H. injection H as H.
  apply pretty_nat_inj in H. lia.
Qed.

(** A job that a worker holds under a fresh lock passes no filter. *)
Lemma held_not_eligible now fiveMinutesAgo job t :
  state job = processing → locked_at job = Some t → fiveMinutesAgo ≤ t →
  eligible now fiveMinutesAgo job = false.
Proof.
  intros Hst Hat Hfresh. unfold eligible. rewrite Hst, Hat. simpl.
  destruct (Z.ltb_spec t fiveMinutesAgo); [lia |].
  by rewrite andb_false_r.
Qed.

Lemma start_workers count clock jobs :
  (∀ i k, (i < k < count)%nat →
     (clock k).2 - 5 * 60 * 1000 ≤ (clock i).1) →
  let '(workers, jobs') := start count clock ([], jobs) in
  length workers = count
  ∧ ∀ i w, workers !! i = Some w →
      w_id w = "worker_" +:+ pretty (i + 1)%nat
      ∧ match w_status w with
        | idle => currentJob w = None
        | busy =>
            ∃ idx job,
              jobs' !! idx = Some job
              ∧ currentJob w = Some (id job)
              ∧ state job = processing
              ∧ locked_by job = Some (w_id w)
              ∧ locked_at job = Some (clock i).1
        end.
Proof.
  induction count as [|n IH]; intros Hclock.
  - simpl. split; [done |]. by intros i w Hi.
  - unfold start. rewrite seq_S, foldl_app. simpl.
    fold (start n clock ([], jobs)).
    destruct (start n clock ([], jobs)) as [workers jobs1] eqn:Hst.
    destruct IH as [Hlen Hall]; [intros i k Hik; apply Hclock; lia |].
    unfold startWorker, processJobs_start. simpl.
    assert (Hkept : ∀ i w idx job,
              workers !! i = Some w → jobs1 !! idx = Some job →
              state job = processing → locked_at job = Some (clock i).1 →
              (getNextJob (clock n).1 (clock n).2
                 ("worker_" +:+ pretty (n + 1)%nat) jobs1).2 !! idx
              = Some job).
    { intros i w idx job Hi Hidx Hstate Hat.
      apply getNextJob_keeps_ineligible; [done |].
      apply (held_not_eligible _ _ _ (clock i).1); [done | done |].
      apply Hclock. apply lookup_lt_Some in Hi. lia. }
    destruct (getNextJob (clock n).1 (clock n).2
                ("worker_" +:+ pretty (n + 1)%nat) jobs1)
      as [[picked|] jobs2] eqn:Hget; simpl in Hkept.
    + apply getNextJob_Some in Hget
        as (idx & job & Hidx & He & -> & _ & Hlook).
      split; [rewrite length_app; simpl; lia |].
      intros i w [Hi | [Hge Hi]]%lookup_app_Some.
      * destruct (Hall i w Hi) as [Hid Hw]. split; [done |].
        destruct (w_status w); [done |].
        destruct Hw as (idx0 & job0 & Hidx0 & Hcur & Hstate & Hby & Hat).
        exists idx0, job0. split_and!; try done. by eapply Hkept.
      * apply list_lookup_singleton_Some in Hi as [Hi <-]. simpl.
        assert (i = n) as -> by lia. split; [done |].
        eexists idx, _. split; [exact Hlook |]. by split_and!.
    + split; [rewrite length_app; simpl; lia |].
      intros i w [Hi | [Hge Hi]]%lookup_app_Some.
      * destruct (Hall i w Hi) as [Hid Hw]. split; [done |].
        destruct (w_status w); [done |].
        destruct Hw as (idx0 & job0 & Hidx0 & Hcur & Hstate & Hby & Hat).
        exists idx0, job0. split_and!; try done. by eapply Hkept.
      * apply list_lookup_singleton_Some in Hi as [Hi <-]. simpl.
        assert (i = n) as -> by lia. done.
Qed.

(** X21.  [start(count)], as far as every worker's first [await], when no
    lock taken in the loop gets five minutes old within it: there are [count]
    workers named [worker_1] to [worker_<count>], pairwise distinct; an idle
    worker has no current job; a busy worker's current job is the id of a job
    of the store that is processing and locked by that worker since the
    instant it asked. *)
Theorem start_one_job_each count clock jobs :
  (∀ i k, (i < k < count)%nat →
     (clock k).2 - 5 * 60 * 1000 ≤ (clock i).1) →
  let '(workers, jobs') := start count clock ([], jobs) in
  length workers = count
  ∧ (∀ i w, workers !! i = Some w →
       w_id w = "worker_" +:+ pretty (i + 1)%nat
       ∧ match w_status w with
         | idle => currentJob w = None
         | busy =>
             ∃ idx job,
               jobs' !! idx = Some job
               ∧ currentJob w = Some (id job)
               ∧ state job = processing
               ∧ locked_by job = Some (w_id w)
               ∧ locked_at job = Some (clock i).1
         end)
  ∧ ∀ i k w w', workers !! i = Some w → workers !! k = Some w' →
      w_id w = w_id w' → i = k.
Proof.
  intros Hclock. pose proof (start_workers count clock jobs Hclock) as H.
  destruct (start count clock ([], jobs)) as [workers jobs'].
  destruct H as [Hlen Hall]. split_and!; [done | done |].
  intros i k w w' Hi Hk E.
  destruct (Hall i w Hi) as [Ei _], (Hall k w' Hk) as [Ek _].
  apply worker_id_inj. congruence.
Qed.

(** X21: a witness. *)
Lemma start_one_job_each_witness :
  (∀ i k : nat, (i < k < 2)%nat → 3000 - 5 * 60 * 1000 ≤ 3000)
  ∧ let '(workers, jobs') :=
      start 2 (λ _, (3000, 3000)) ([], store_younger_first) in
    length workers = 2%nat
    ∧ ∀ i k w w', workers !! i = Some w → workers !! k = Some w' →
        w_id w = w_id w' → i = k.
Proof.
  assert (H : ∀ i k : nat, (i < k < 2)%nat → 3000 - 5 * 60 * 1000 ≤ 3000)
    by (intros; lia).
  split; [exact H |].
  pose proof (start_one_job_each 2 (λ _, (3000, 3000)) store_younger_first H)
    as Hstart.
  destruct (start 2 (λ _, (3000, 3000)) ([], store_younger_first))
    as [workers jobs'].
  destruct Hstart as (Hlen & _ & Hdistinct). by split.
Defined.

(** ** What the logger prints *)

Lemma levels_range name n : Logger.levels name = Some n → 0 ≤ n ≤ 3.
Proof.
  unfold Logger.levels. repeat case_match; intros [= <-]; lia.
Qed.

(** X22.  The logger never skips an error message, whatever [LOG_LEVEL]
    is; a [LOG_LEVEL] that is none of the four level names (a lower-case
    one, for instance) skips nothing at all; without [LOG_LEVEL], or with an
    empty one, exactly the [DEBUG] messages are skipped. *)
Theorem log_prints_errors LOG_LEVEL level :
  Logger.skipped LOG_LEVEL "ERROR" = false
  ∧ (Logger.currentLevel LOG_LEVEL = None →
     Logger.skipped LOG_LEVEL level = false)
  ∧ (Logger.skipped None level = true ↔ level = "DEBUG")
  ∧ Logger.skipped (Some "") level = Logger.skipped None level.
Proof.
  split_and!.
  - unfold Logger.skipped. simpl.
    destruct (Logger.currentLevel LOG_LEVEL) as [b|] eqn:Hb; [| done].
    apply levels_range in Hb. apply Z.ltb_ge. lia.
  - intros Hnone. unfold Logger.skipped. rewrite Hnone. by case_match.
  - unfold Logger.skipped, Logger.levels. simpl.
    destruct (String.eqb_spec level "DEBUG") as [->|Hne]; [done |].
    repeat case_match; simplify_eq; split; done.
  - done.
Qed.

(** ** Under a clock that never goes back *)

Lemma instants_in_order_later t t' j :
  t ≤ t' → instants_in_order t j → instants_in_order t' j.
Proof. intros Ht (? & ? & ?). split_and!; [done | lia | done]. Qed.

(** Writing over a job a job of the same [created_at] whose instants are in
    order keeps the store in order. *)
Lemma timed_insert t t' (jobs : list Job) i job job' :
  t ≤ t' →
  Forall (instants_in_order t) jobs ∧ in_creation_order jobs →
  jobs !! i = Some job → created_at job' = created_at job →
  instants_in_order t' job' →
  Forall (instants_in_order t') (<[i := job']> jobs)
  ∧ in_creation_order (<[i := job']> jobs).
Proof.
  intros Ht [Hall Hord] Hi Hc Hjob. split.
  - apply Forall_insert; [| done].
    eapply Forall_impl; [exact Hall |]. intros j.
    by apply instants_in_order_later.
  - eapply in_creation_order_fmap; [| exact Hord]. by eapply created_at_insert.
Qed.

Lemma timed_instants t jobs :
  timed t jobs →
  Forall (instants_in_order t) jobs ∧ in_creation_order jobs.
Proof.
  assert (Hsame : ∀ t t' (jobs : list Job), t ≤ t' →
            Forall (instants_in_order t) jobs ∧ in_creation_order jobs →
            Forall (instants_in_order t') jobs ∧ in_creation_order jobs).
  { intros t0 t' l Ht [Hall Hord]. split; [| done].
    eapply Forall_impl; [exact Hall |]. intros j.
    by apply instants_in_order_later. }
  induction 1 as [t | t t_id rnd tc tu jobData jobs _ IH H1 H2 H3
                 | t now now2 w jobs _ IH H1 H2
                 | t now jobId st err jobs _ IH H1
                 | t now jobId err jobs _ IH H1
                 | t tr tu jobId b jobs _ IH H1 H2
                 | t now jobId jobs jobs' _ IH H1 Hc
                 | t now jobId jobs jobs' _ IH H1 Hr].
  - split; [constructor |]. by intros i1 i2 j1 j2 ?.
  - destruct IH as [Hall Hord]. simpl. split.
    + apply Forall_app. split.
      * eapply Forall_impl; [exact Hall |]. intros j.
        apply instants_in_order_later. lia.
      * repeat constructor; simpl; [lia | lia | done | done].
    + apply in_creation_order_snoc; [done |].
      eapply Forall_impl; [exact Hall |]. intros j (? & ? & _). simpl. lia.
  - unfold getNextJob.
    destruct (eligibleJobs now _ jobs) as [|[job idx] rest] eqn:Hel.
    { simpl. apply (Hsame t); [lia | done]. }
    apply eligibleJobs_head in Hel as (Hidx & _ & _). simpl.
    apply (timed_insert t now2 jobs idx job); [lia | done | done | done |].
    destruct IH as [Hall _].
    destruct (Forall_lookup_1 _ _ _ _ Hall Hidx) as (Hcu & Hut & _).
    split_and!; simpl; [lia | lia |]. intros l [= <-]. lia.
  - unfold updateJobState.
    destruct (find_id jobId jobs) as [[i job]|] eqn:Hfind;
      [| by apply (Hsame t)].
    apply find_id_Some in Hfind as (Hi & _ & _).
    apply (timed_insert t now jobs i job); [done.. |].
    destruct IH as [Hall _].
    destruct (Forall_lookup_1 _ _ _ _ Hall Hi) as (Hcu & Hut & _).
    split_and!; simpl; [lia | lia | done].
  - unfold setJobError.
    destruct (find_id jobId jobs) as [[i job]|] eqn:Hfind;
      [| by apply (Hsame t)].
    apply find_id_Some in Hfind as (Hi & _ & _).
    apply (timed_insert t now jobs i job); [done.. |].
    destruct IH as [Hall _].
    destruct (Forall_lookup_1 _ _ _ _ Hall Hi) as (Hcu & Hut & Hl).
    split_and!; simpl; [lia | lia |]. intros l Hlock.
    destruct (Hl l Hlock). lia.
  - unfold incrementAttempts.
    destruct (find_id jobId jobs) as [[i job]|] eqn:Hfind;
      [| apply (Hsame t); [lia | done]].
    apply find_id_Some in Hfind as (Hi & _ & _).
    destruct IH as [Hall Hord].
    destruct (Forall_lookup_1 _ _ _ _ Hall Hi) as (Hcu & Hut & _).
    destruct (_ >=? _);
      (apply (timed_insert t tu jobs i job); [lia | done | done | done |]);
      (split_and!; simpl; [lia | lia | done]).
  - unfold cancelJob in Hc.
    destruct (find_id jobId jobs) as [[i job]|] eqn:Hfind; [| done].
    apply find_id_Some in Hfind as (Hi & _ & _).
    repeat case_decide; simplify_eq.
    apply (timed_insert t now jobs i job); [done.. |].
    destruct IH as [Hall _].
    destruct (Forall_lookup_1 _ _ _ _ Hall Hi) as (Hcu & Hut & _).
    split_and!; simpl; [lia | lia | done].
  - unfold retryFromDLQ in Hr.
    destruct (list_find _ jobs) as [[i job]|] eqn:Hfind; [| done].
    apply list_find_Some in Hfind as (Hi & _ & _). simplify_eq.
    apply (timed_insert t now jobs i job); [done.. |].
    destruct IH as [Hall _].
    destruct (Forall_lookup_1 _ _ _ _ Hall Hi) as (Hcu & Hut & Hl).
    split_and!; simpl; [lia | lia |]. intros l Hlock.
    destruct (Hl l Hlock). lia.
Qed.

Lemma timed_store_enqueued : timed 1000 store_enqueued.
Proof. apply (timed_enqueue 1000); [apply timed_init | lia..]. Qed.

Lemma timed_store_completed : timed 3000 (complete 3000 "j1" store_claimed).
Proof.
  apply (timed_updateJobState 2000); [| lia].
  apply (timed_getNextJob 1000); [apply timed_store_enqueued | lia..].
Qed.

(** X23.  While the clock never goes back, every job of the store has
    [created_at <= updated_at], no instant after the last reading of the
    clock, and a [locked_at], when it has one, between the two; and the store
    lists its jobs in the order of their [created_at]. *)
Theorem timed_timestamps t jobs :
  timed t jobs →
  (∀ job, job ∈ jobs →
     created_at job ≤ updated_at job ∧ updated_at job ≤ t
     ∧ ∀ l, locked_at job = Some l → created_at job ≤ l ∧ l ≤ updated_at job)
  ∧ ∀ i1 i2 j1 j2,
      jobs !! i1 = Some j1 → jobs !! i2 = Some j2 → (i1 ≤ i2)%nat →
      created_at j1 ≤ created_at j2.
Proof.
  intros [Hall Hord]%timed_instants. split; [| exact Hord].
  rewrite Forall_forall in Hall. intros job Hin. by apply Hall.
Qed.

(** X23: a witness. *)
Lemma timed_timestamps_witness :
  timed 3000 (complete 3000 "j1" store_claimed)
  ∧ ∀ job, job ∈ complete 3000 "j1" store_claimed →
      created_at job ≤ updated_at job ∧ updated_at job ≤ 3000.
Proof.
  split; [exact timed_store_completed |].
  intros job Hin.
  destruct (proj1 (timed_timestamps 3000 _ timed_store_completed) job Hin)
    as (H1 & H2 & _).
  by split.
Defined.



Lemma sum_Z_nonneg (l : list Z) : Forall (λ x, 0 ≤ x) l → 0 ≤ sum_Z l.
Proof. induction 1 as [|x l Hx _ IH]; simpl; lia. Qed.

Lemma Math_round_nonneg (x : Q) : (0 <= x)%Q → 0 ≤ Math_round x.
Proof.
  intros Hx. unfold Math_round. change 0 with (Qfloor 0).
  apply Qfloor_resp_le. lra.
Qed.

Lemma Forall_filter_jobs (P Q : Job → Prop) `{!∀ j, Decision (Q j)} l :
  Forall P l → Forall P (filter Q l).
Proof.
  rewrite !Forall_forall. intros Hall j [_ Hj]%list_elem_of_filter.
  by apply Hall.
Qed.

(** X25.  While the clock never goes back, no job has a negative
    [updated_at - created_at], and the average execution time that
    [getMetrics] reports is not negative. *)
Theorem timed_metrics t jobs :
  timed t jobs →
  Forall (λ j, 0 ≤ executionTime j) jobs
  ∧ 0 ≤ avgExecutionTime (getMetrics jobs).
Proof.
  intros [Hall _]%timed_instants.
  assert (Hpos : Forall (λ j, 0 ≤ executionTime j) jobs).
  { eapply Forall_impl; [exact Hall |]. intros j (? & _).
    unfold executionTime. lia. }
  split; [exact Hpos |].
  unfold getMetrics. case_decide as Hnone; [done |]. simpl.
  apply Math_round_nonneg. rewrite foldl_add_sum.
  set (times := executionTime <$> filter (λ j, state j = completed) jobs).
  assert (Hsum : 0 ≤ 0 + sum_Z times).
  { assert (0 ≤ sum_Z times); [| lia]. apply sum_Z_nonneg.
    subst times. apply Forall_fmap.
    eapply Forall_impl; [by apply Forall_filter_jobs | done]. }
  apply Qmult_le_0_compat; [| done].
  apply Qmult_le_0_compat; [| apply Qinv_le_0_compat];
    (change 0%Q with (inject_Z 0); rewrite <- Zle_Qle; lia).
Qed.

(** X25: a witness. *)
Lemma timed_metrics_witness :
  timed 3000 (complete 3000 "j1" store_claimed)
  ∧ 0 ≤ avgExecutionTime (getMetrics (complete 3000 "j1" store_claimed)).
Proof.
  split; [exact timed_store_completed |].
  exact (proj2 (timed_metrics 3000 _ timed_store_completed)).
Defined.

(** ** Cancelling a dead job *)

Lemma ids_unique_store_failed_thrice : ids_unique store_failed_thrice.
Proof.
  assert (Hlen : length store_failed_thrice = 1%nat)
    by (vm_compute; reflexivity).
  intros i1 i2 j1 j2 H1 H2 _.
  apply lookup_lt_Some in H1, H2. lia.
Qed.

(** X26.  [cancelJob] accepts a dead job.  In a store without duplicate
    ids the job then leaves the dead letter queue: [listDLQ] lists it before
    the call and no job of its id after it, the other entries of [listDLQ]
    are the same, and [retryFromDLQ] throws for its id. *)
Theorem cancel_leaves_the_dlq now now' jobId jobs i job :
  ids_unique jobs →
  find_id jobId jobs = Some (i, job) → state job = dead →
  ∃ jobs',
    cancelJob now jobId jobs = inr jobs'
    ∧ job ∈ listDLQ jobs
    ∧ (∀ j, j ∈ listDLQ jobs' → id j ≠ jobId)
    ∧ (∀ j, id j ≠ jobId → j ∈ listDLQ jobs' ↔ j ∈ listDLQ jobs)
    ∧ retryFromDLQ now' jobId jobs' = inl (NotFoundInDLQ jobId).
Proof.
  intros Huniq Hfind Hdead.
  pose proof (find_id_Some _ _ _ _ Hfind) as (Hi & Hid & Hlen).
  unfold cancelJob. rewrite Hfind.
  rewrite decide_False by (rewrite Hdead; done).
  rewrite decide_False by (rewrite Hdead; done).
  eexists. split; [reflexivity |].
  set (job' := set_locked_at None (set_locked_by None
                 (set_updated_at now (set_state cancelled job)))).
  assert (Hin : ∀ j, j ∈ <[i := job']> jobs ↔
                     j = job' ∨ ∃ k, k ≠ i ∧ jobs !! k = Some j).
  { intros j. rewrite list_elem_of_lookup. split.
    - intros [k Hk]. destruct (decide (k = i)) as [->|Hne].
      + rewrite list_lookup_insert_eq in Hk by done. left. congruence.
      + rewrite list_lookup_insert_ne in Hk by done. right. by exists k.
    - intros [-> | (k & Hne & Hk)].
      + exists i. by apply list_lookup_insert_eq.
      + exists k. by rewrite list_lookup_insert_ne. }
  assert (Hdlq : ∀ jobs0 j, j ∈ listDLQ jobs0 ↔ j ∈ jobs0 ∧ state j = dead).
  { intros jobs0 j. unfold listDLQ.
    rewrite sort_jobs_Permutation, list_elem_of_filter. tauto. }
  split_and!.
  - apply Hdlq. split; [by eapply list_elem_of_lookup_2 | done].
  - intros j [Hj Hst]%Hdlq Heq. apply Hin in Hj as [-> | (k & Hne & Hk)].
    + done.
    + apply Hne. apply (Huniq k i j job Hk Hi). congruence.
  - intros j Hne. rewrite !Hdlq, Hin. split.
    + intros [[-> | (k & _ & Hk)] Hst]; [done |].
      split; [by eapply list_elem_of_lookup_2 | done].
    + intros [[k Hk]%list_elem_of_lookup Hst]. split; [| done].
      right. exists k. split; [| done]. intros ->. congruence.
  - unfold retryFromDLQ.
    destruct (list_find _ _) as [[k j]|] eqn:Hf; [| done].
    apply list_find_Some in Hf as (Hk & [Hjid Hjst] & _).
    destruct (decide (k = i)) as [->|Hne].
    + rewrite list_lookup_insert_eq in Hk by done. by simplify_eq.
    + rewrite list_lookup_insert_ne in Hk by done.
      destruct Hne. apply (Huniq k i j job Hk Hi). congruence.
Qed.

(** X26: a witness. *)
Lemma cancel_leaves_the_dlq_witness :
  ids_unique store_failed_thrice
  ∧ ∃ job, find_id "j1" store_failed_thrice = Some (0%nat, job)
      ∧ state job = dead
      ∧ ∃ jobs',
          cancelJob 12000 "j1" store_failed_thrice = inr jobs'
          ∧ retryFromDLQ 13000 "j1" jobs' = inl (NotFoundInDLQ "j1").
Proof.
  split; [exact ids_unique_store_failed_thrice |].
  assert (H : ∃ job, find_id "j1" store_failed_thrice = Some (0%nat, job)
                     ∧ state job = dead)
    by (eexists; split; vm_compute; reflexivity).
  destruct H as (job & Hfind & Hdead). exists job.
  split; [exact Hfind |]. split; [exact Hdead |].
  destruct (cancel_leaves_the_dlq 12000 13000 "j1" store_failed_thrice 0 job
              ids_unique_store_failed_thrice Hfind Hdead)
    as (jobs' & Hcancel & _ & _ & _ & Hretry).
  by exists jobs'.
Defined.
